(** * orderedheaders: ordered RFC 5322 header blocks

    A shallow embedding of the Go package [orderedheaders] (header.go,
    reader.go, generate.go) and the properties of its header model, reader,
    validator and folding writer.

    Go strings and byte slices are lists of 8-bit characters; indices and
    lengths are natural numbers.  Functions of the Go standard library that
    the package calls are modelled after their documented behaviour
    (net/textproto, strings, unicode, unicode/utf8, regexp); the address,
    date and encoded-word collaborators (net/mail, mime) are parameters. *)

From Stdlib Require Import Ascii String List Arith Lia DecimalString.
From stdpp Require Import gmap strings list.
From Equations Require Import Equations.

Open Scope char_scope.
Open Scope nat_scope.

(* ================================================================== *)
(** * Bytes and strings *)
(* ================================================================== *)

Abbreviation bytes := (list ascii).

(** A Go string literal. *)
Definition str (s : string) : bytes := list_ascii_of_string s.

Definition code (c : ascii) : nat := nat_of_ascii c.

Definition TAB : ascii := "009".
Definition LF : ascii := "010".
Definition VT : ascii := "011".
Definition FF : ascii := "012".
Definition CR : ascii := "013".
Definition SP : ascii := " ".
Definition DQUOTE : ascii := "034".
Definition COLON : ascii := ":".
Definition HYPHEN : ascii := "-".
Definition COMMA : ascii := ",".

Definition CRLF : bytes := [CR; LF].

(** [c] lies in the closed range [lo..hi]. *)
Definition inRange (lo hi c : ascii) : bool :=
  (code lo <=? code c) && (code c <=? code hi).

(** [val[a:b]], for [a <= b <= len(val)]. *)
Definition slice (val : bytes) (a b : nat) : bytes := take (b - a) (drop a val).

(** [val[i]]; the callers test [i < len(val)] first. *)
Definition byteAt (val : bytes) (i : nat) : ascii := nth i val "000".

(* ================================================================== *)
(** * net/textproto: CanonicalMIMEHeaderKey *)
(* ================================================================== *)

(** The bytes of an RFC 7230 token: letters, digits and
    [! # $ % & ' * + - . ^ _ ` | ~]. *)
Definition validHeaderFieldByte (c : ascii) : bool :=
  inRange "0" "9" c || inRange "a" "z" c || inRange "A" "Z" c
  || existsb (Ascii.eqb c)
       ["!"; "#"; "$"; "%"; "&"; "'"; "*"; "+"; "-"; "."; "^"; "_"; "`"; "|"; "~"].

Definition toLower : nat := 32.

(** One step of the canonicalizing loop: a lower-case letter where an
    upper-case one is due is raised, an upper-case one elsewhere lowered. *)
Definition canonByte (upper : bool) (c : ascii) : ascii :=
  if upper && inRange "a" "z" c then ascii_of_nat (code c - toLower)
  else if negb upper && inRange "A" "Z" c then ascii_of_nat (code c + toLower)
  else c.

(** The canonicalizing loop of [canonicalMIMEHeaderKey]: first letter and
    every letter after a hyphen in upper case, the others in lower case. *)
Fixpoint canonLoop (upper : bool) (a : bytes) : bytes :=
  match a with
  | [] => []
  | c :: a' =>
      let c := canonByte upper c in
      c :: canonLoop (Ascii.eqb c HYPHEN) a'
  end.

(** The validity scan of [canonicalMIMEHeaderKey]: [None] on a byte that is
    neither a token byte nor a space, otherwise whether a space was seen. *)
Fixpoint scanKey (noCanon : bool) (a : bytes) : option bool :=
  match a with
  | [] => Some noCanon
  | c :: a' =>
      if validHeaderFieldByte c then scanKey noCanon a'
      else if Ascii.eqb c SP then scanKey true a'
      else None
  end.

(** [canonicalMIMEHeaderKey]: the key and whether it holds only token bytes
    and spaces.  A key with a space or any other non-token byte is returned
    unchanged.  (The final table of common headers maps a canonical key to
    an equal string and is left out.) *)
Definition canonicalMIMEHeaderKey (a : bytes) : bytes * bool :=
  match scanKey false a with
  | None => (a, false)
  | Some true => (a, true)
  | Some false => (canonLoop true a, true)
  end.

(** The quick check of [CanonicalMIMEHeaderKey] over the rest [r] of [s]. *)
Fixpoint quickCheck (s : bytes) (upper : bool) (r : bytes) : bytes :=
  match r with
  | [] => s
  | c :: r' =>
      if negb (validHeaderFieldByte c) then s
      else if upper && inRange "a" "z" c then fst (canonicalMIMEHeaderKey s)
      else if negb upper && inRange "A" "Z" c then fst (canonicalMIMEHeaderKey s)
      else quickCheck s (Ascii.eqb c HYPHEN) r'
  end.

Definition CanonicalMIMEHeaderKey (s : bytes) : bytes := quickCheck s true s.

(* ================================================================== *)
(** * header.go: the header model *)
(* ================================================================== *)

(** A KV represents a single header. *)
Record KV := mkKV { Key : bytes; Value : bytes }.

(** A Header is a list of key, value pairs. *)
Record Header := mkHeader { Headers : list KV }.

Definition emptyHeader : Header := mkHeader [].

(** Add appends a pair under the canonical key. *)
Definition Add (h : Header) (key value : bytes) : Header :=
  let key := CanonicalMIMEHeaderKey key in
  mkHeader (Headers h ++ [mkKV key value]).

Fixpoint getLoop (key : bytes) (hs : list KV) : bytes :=
  match hs with
  | [] => []
  | h :: hs' => if bool_decide (key = Key h) then Value h else getLoop key hs'
  end.

(** Get returns the first value under the key, or the empty string. *)
Definition Get (h : Header) (key : bytes) : bytes :=
  getLoop (CanonicalMIMEHeaderKey key) (Headers h).

Fixpoint hasLoop (key : bytes) (hs : list KV) : bool :=
  match hs with
  | [] => false
  | h :: hs' => if bool_decide (key = Key h) then true else hasLoop key hs'
  end.

Definition Has (h : Header) (key : bytes) : bool :=
  hasLoop (CanonicalMIMEHeaderKey key) (Headers h).

Fixpoint removeLoop (key : bytes) (hs filtered : list KV) : list KV :=
  match hs with
  | [] => filtered
  | kv :: hs' =>
      if bool_decide (Key kv ≠ key) then removeLoop key hs' (filtered ++ [kv])
      else removeLoop key hs' filtered
  end.

(** RemoveAll removes all headers with this (canonicalized) name. *)
Definition RemoveAll (h : Header) (key : bytes) : Header :=
  let key := CanonicalMIMEHeaderKey key in
  mkHeader (removeLoop key (Headers h) []).

(* ================================================================== *)
(** * unicode/utf8: decoding the first rune of a string *)
(* ================================================================== *)

Definition rune := N.

Definition RuneError : rune := 0xFFFD%N.

Definition ncode (c : ascii) : N := N_of_ascii c.

(** Information on the first byte of a sequence: ASCII, invalid, or the
    length of the sequence and the accepted range of its second byte. *)
Inductive firstInfo :=
| AS
| XX
| Multi (size : nat) (lo hi : N).

Definition first (b : ascii) : firstInfo :=
  let n := ncode b in
  if (n <? 0x80)%N then AS
  else if (n <? 0xC2)%N then XX
  else if (n <? 0xE0)%N then Multi 2 0x80 0xBF
  else if (n =? 0xE0)%N then Multi 3 0xA0 0xBF
  else if (n <? 0xED)%N then Multi 3 0x80 0xBF
  else if (n =? 0xED)%N then Multi 3 0x80 0x9F
  else if (n <? 0xF0)%N then Multi 3 0x80 0xBF
  else if (n =? 0xF0)%N then Multi 4 0x90 0xBF
  else if (n <? 0xF4)%N then Multi 4 0x80 0xBF
  else if (n =? 0xF4)%N then Multi 4 0x80 0x8F
  else XX.

Definition accept (lo hi : N) (b : ascii) : bool :=
  ((lo <=? ncode b) && (ncode b <=? hi))%N.

(** A continuation byte, [10xxxxxx]. *)
Definition isCont (b : ascii) : bool := accept 0x80 0xBF b.

(** The six low bits of a continuation byte. *)
Definition low6 (b : ascii) : N := N.land (ncode b) 0x3F.

(** [utf8.DecodeRuneInString]: the first rune of [s] and its width in
    bytes; [(RuneError, 0)] for the empty string and [(RuneError, 1)] for
    an invalid or incomplete encoding. *)
Definition decodeRune (s : bytes) : rune * nat :=
  match s with
  | [] => (RuneError, 0)
  | b0 :: r =>
      match first b0 with
      | AS => (ncode b0, 1)
      | XX => (RuneError, 1)
      | Multi sz lo hi =>
          match sz, r with
          | 2, b1 :: _ =>
              if accept lo hi b1
              then (N.lor (N.shiftl (N.land (ncode b0) 0x1F) 6) (low6 b1), 2)
              else (RuneError, 1)
          | 3, b1 :: b2 :: _ =>
              if accept lo hi b1 && isCont b2
              then (N.lor (N.shiftl (N.land (ncode b0) 0x0F) 12)
                      (N.lor (N.shiftl (low6 b1) 6) (low6 b2)), 3)
              else (RuneError, 1)
          | 4, b1 :: b2 :: b3 :: _ =>
              if accept lo hi b1 && isCont b2 && isCont b3
              then (N.lor (N.shiftl (N.land (ncode b0) 0x07) 18)
                      (N.lor (N.shiftl (low6 b1) 12)
                         (N.lor (N.shiftl (low6 b2) 6) (low6 b3))), 4)
              else (RuneError, 1)
          | _, _ => (RuneError, 1)
          end
      end
  end.

(** The encoded runes of a string, in order: each piece is the bytes of one
    rune, an invalid byte is a piece of its own. *)
Equations? runes (s : bytes) : list bytes by wf (length s) lt :=
runes [] := [];
runes (b :: r) :=
  take (snd (decodeRune (b :: r))) (b :: r)
    :: runes (drop (snd (decodeRune (b :: r))) (b :: r)).
Proof.
  rewrite length_drop.
  change (length (b :: r) - snd (decodeRune (b :: r)) < length (b :: r)).
  assert (0 < snd (decodeRune (b :: r))); [|cbn [length]; lia].
  unfold decodeRune.
  destruct (first b) as [| |[|[|[|[|[|]]]]] lo hi]; simpl; try lia;
    repeat (match goal with
            | |- context [match ?l with [] => _ | _ :: _ => _ end] => destruct l
            end; simpl; try lia);
    repeat (match goal with
            | |- context [if ?c then _ else _] => destruct c
            end; simpl; try lia).
Qed.

(** The rune a piece encodes. *)
Definition runeOf (c : bytes) : rune := fst (decodeRune c).

(* ================================================================== *)
(** * unicode, strings, regexp *)
(* ================================================================== *)

Definition inN (lo hi r : N) : bool := ((lo <=? r) && (r <=? hi))%N.

(** [unicode.IsSpace]: the White_Space property. *)
Definition IsSpace (r : rune) : bool :=
  if (r <=? 0xFF)%N then
    existsb (N.eqb r) [0x09; 0x0A; 0x0B; 0x0C; 0x0D; 0x20; 0x85; 0xA0]%N
  else
    (r =? 0x1680)%N || inN 0x2000 0x200A r || inN 0x2028 0x2029 r
    || (r =? 0x202F)%N || (r =? 0x205F)%N || (r =? 0x3000)%N.

(** The category Zs (space separators). *)
Definition IsZs (r : rune) : bool :=
  (r =? 0x20)%N || (r =? 0xA0)%N || (r =? 0x1680)%N || inN 0x2000 0x200A r
  || (r =? 0x202F)%N || (r =? 0x205F)%N || (r =? 0x3000)%N.

(** The Perl class [\s] of Go's regexp syntax, which is [[\t\n\f\r ]]. *)
Definition perlSpace (r : rune) : bool :=
  existsb (N.eqb r) [0x09; 0x0A; 0x0C; 0x0D; 0x20]%N.

Definition isSpacePiece (c : bytes) : bool := IsSpace (runeOf c).

Fixpoint dropWhile {A} (f : A -> bool) (l : list A) : list A :=
  match l with
  | [] => []
  | x :: l' => if f x then dropWhile f l' else l
  end.

Definition dropWhileEnd {A} (f : A -> bool) (l : list A) : list A :=
  rev (dropWhile f (rev l)).

(** [strings.TrimSpace]: [s] without its leading and trailing white space,
    as defined by Unicode. *)
Definition TrimSpace (s : bytes) : bytes :=
  concat (dropWhileEnd isSpacePiece (dropWhile isSpacePiece (runes s))).

(** The character class of [whitespaceRe], [[\s\p{Zs}]]. *)
Definition whitespaceClass (c : bytes) : bool :=
  perlSpace (runeOf c) || IsZs (runeOf c).

(** Each maximal run of pieces in the class becomes the replacement [repl];
    [inRun] says that the previous piece was in the class. *)
Fixpoint replaceRuns (class : bytes -> bool) (repl : bytes) (inRun : bool)
    (cs : list bytes) : list bytes :=
  match cs with
  | [] => []
  | c :: cs' =>
      if class c then
        if inRun then replaceRuns class repl true cs'
        else repl :: replaceRuns class repl true cs'
      else c :: replaceRuns class repl false cs'
  end.

(** [whitespaceRe.ReplaceAllLiteralString(s, repl)] for
    [whitespaceRe = regexp.MustCompile(`[\s\p{Zs}]+`)]. *)
Definition whitespaceRe_ReplaceAllLiteralString (s repl : bytes) : bytes :=
  concat (replaceRuns whitespaceClass repl false (runes s)).

(** The new value of one entry in Normalize. *)
Definition normalizeValue (v : bytes) : bytes :=
  TrimSpace (whitespaceRe_ReplaceAllLiteralString v (str " ")).

(** The loop of Normalize: [h.Headers[i].Value = ...] for every index. *)
Fixpoint normalizeLoop (i : nat) (todo hs : list KV) : list KV :=
  match todo with
  | [] => hs
  | kv :: todo' =>
      normalizeLoop (S i) todo'
        (alter (fun e => mkKV (Key e) (normalizeValue (Value kv))) i hs)
  end.

(** Normalize replaces all whitespace in a header with a single space. *)
Definition Normalize (h : Header) : Header :=
  mkHeader (normalizeLoop 0 (Headers h) (Headers h)).

(* ================================================================== *)
(** * generate.go: the type registry *)
(* ================================================================== *)

Definition HdrReturnPath := str "Return-Path".
Definition HdrReceived := str "Received".
Definition HdrDate := str "Date".
Definition HdrFrom := str "From".
Definition HdrSender := str "Sender".
Definition HdrReplyTo := str "Reply-To".
Definition HdrTo := str "To".
Definition HdrCc := str "Cc".
Definition HdrBcc := str "Bcc".
Definition HdrMessageId := str "Message-Id".
Definition HdrInReplyTo := str "In-Reply-To".
Definition HdrReferences := str "References".
Definition HdrSubject := str "Subject".
Definition HdrComments := str "Comments".
Definition HdrKeywords := str "Keywords".
Definition HdrResentDate := str "Resent-Date".
Definition HdrResentFrom := str "Resent-From".
Definition HdrResentSender := str "Resent-Sender".
Definition HdrResentTo := str "Resent-To".
Definition HdrResentCc := str "Resent-Cc".
Definition HdrResentBcc := str "Resent-Bcc".
Definition HdrMimeVersion := str "Mime-Version".
Definition HdrContentType := str "Content-Type".
Definition HdrContentID := str "Content-ID".
Definition HdrContentTransferEncoding := str "Content-Transfer-Encoding".
Definition HdrContentDescription := str "Content-Description".

(** HeaderType describes the required syntax for an email header. *)
Inductive HeaderType :=
| HeaderTypeUnstructured
| HeaderTypeMailbox
| HeaderTypeMailboxList
| HeaderTypeDate
| HeaderTypeReceived
| HeaderTypeMessageID
| HeaderTypeMessageIDList
| HeaderTypePhraseList
| HeaderTypeReturnPath
| HeaderTypeOpaque.

(** Syntax contains RFC 5322 requirements for a header. *)
Record Syntax := mkSyntax { Required : bool; Unique : bool; Type_ : HeaderType }.

(** HeaderSyntax maps header names to their syntax. *)
Definition HeaderSyntax : gmap bytes Syntax :=
  list_to_map
    [ (HdrReturnPath, mkSyntax false false HeaderTypeReturnPath);
      (HdrReceived, mkSyntax false false HeaderTypeReceived);
      (HdrDate, mkSyntax true true HeaderTypeDate);
      (HdrFrom, mkSyntax true true HeaderTypeMailboxList);
      (HdrSender, mkSyntax false true HeaderTypeMailbox);
      (HdrReplyTo, mkSyntax false true HeaderTypeMailboxList);
      (HdrTo, mkSyntax false true HeaderTypeMailboxList);
      (HdrCc, mkSyntax false true HeaderTypeMailboxList);
      (HdrBcc, mkSyntax false true HeaderTypeMailboxList);
      (HdrMessageId, mkSyntax false true HeaderTypeMessageID);
      (HdrInReplyTo, mkSyntax false true HeaderTypeMessageIDList);
      (HdrReferences, mkSyntax false true HeaderTypeMessageIDList);
      (HdrSubject, mkSyntax false true HeaderTypeUnstructured);
      (HdrComments, mkSyntax false false HeaderTypeUnstructured);
      (HdrKeywords, mkSyntax false false HeaderTypePhraseList);
      (HdrResentDate, mkSyntax false false HeaderTypeDate);
      (HdrResentFrom, mkSyntax false false HeaderTypeMailboxList);
      (HdrResentSender, mkSyntax false false HeaderTypeMailbox);
      (HdrResentTo, mkSyntax false false HeaderTypeMailboxList);
      (HdrResentCc, mkSyntax false false HeaderTypeMailboxList);
      (HdrResentBcc, mkSyntax false false HeaderTypeMailboxList);
      (HdrMimeVersion, mkSyntax false true HeaderTypeOpaque);
      (HdrContentType, mkSyntax false true HeaderTypeOpaque);
      (HdrContentID, mkSyntax false true HeaderTypeMessageID);
      (HdrContentTransferEncoding, mkSyntax false true HeaderTypeOpaque);
      (HdrContentDescription, mkSyntax false true HeaderTypeUnstructured) ].

(** Options configures how a set of headers will be rendered. *)
Record Options := mkOptions {
  RenderBCC : bool;
  RenderBlank : bool;
  NoEscape : bool;
  RenderReturnPath : bool
}.

(* ================================================================== *)
(** * Errors and collaborators *)
(* ================================================================== *)

(** The text of an error of a collaborator. *)
Definition diagnostic := bytes.

Inductive error :=
| ErrEOF                                            (* io.EOF *)
| ErrStream (d : diagnostic)                        (* any other reader error *)
| ErrMalformedLine (line : bytes)                   (* malformed MIME header line *)
| ErrNotStandard (canonKey : bytes)                 (* not a standard email header *)
| ErrInvalidValue (key : bytes) (cause : error)     (* invalid value for key *)
| ErrNonAscii                                       (* cannot contain non-ascii characters *)
| ErrReturnPath (value : bytes) (cause : option diagnostic)
| ErrDate (value : bytes) (cause : diagnostic)
| ErrMailbox (value : bytes) (cause : diagnostic)
| ErrMailboxList (value : bytes) (cause : diagnostic)
| ErrMessageID (s : bytes)                          (* not a valid Message-ID *)
| ErrParse (cause : diagnostic)                     (* a net/mail error, unwrapped *)
| ErrQuotedCRLF (offset : nat)                      (* CR or LF found in quoted string *)
| ErrField (key : bytes) (cause : error).           (* key: cause, from WriteTo *)

(** The collaborators of the package: the address and date parsers of
    net/mail and the encoded-word writer of mime. *)
Class MailLib := {
  Address : Type;
  AddressName : Address -> bytes;                       (* addr.Name *)
  AddressString : Address -> bytes;                     (* addr.String() *)
  ParseAddress : bytes -> Address + diagnostic;         (* mail.ParseAddress *)
  ParseAddressList : bytes -> list Address + diagnostic;  (* mail.ParseAddressList *)
  ParseDate : bytes -> option diagnostic;               (* the error of mail.ParseDate *)
  QEncode : bytes -> bytes                              (* mime.QEncoding.Encode(utf8, s) *)
}.

(** A collaborator that knows one address form only, [local@domain]
    without spaces, and no date; it serves to run the model. *)
Definition plainAddress (s : bytes) : bytes + diagnostic :=
  if existsb (Ascii.eqb "@") s && negb (existsb (Ascii.eqb SP) s)
  then inl s else inr (str "no angle-addr").

#[export] Instance plainMail : MailLib := {|
  Address := bytes;
  AddressName := fun _ => [];
  AddressString := fun a => "<" :: a ++ [">"];
  ParseAddress := plainAddress;
  ParseAddressList := fun s =>
    match plainAddress s with inl a => inl [a] | inr d => inr d end;
  ParseDate := fun _ => Some (str "unknown date");
  QEncode := fun s => str "=?utf-8?q?" ++ s ++ str "?="
|}.

(* ================================================================== *)
(** * regexp: the expression of messageIdRe *)
(* ================================================================== *)

(** Regular expressions over bytes.  Every class of [messageIdRe] holds
    ASCII characters only, so matching byte by byte and rune by rune
    agree. *)
Inductive regex :=
| Never                              (* matches nothing *)
| Eps                                (* the empty string *)
| Class (f : ascii -> bool)          (* one character of a class *)
| Cat (r1 r2 : regex)
| Alt (r1 r2 : regex)
| Star (r : regex).

Definition Plus (r : regex) : regex := Cat r (Star r).
Definition Chr (c : ascii) : regex := Class (Ascii.eqb c).

Fixpoint nullable (r : regex) : bool :=
  match r with
  | Never => false
  | Eps => true
  | Class _ => false
  | Cat r1 r2 => nullable r1 && nullable r2
  | Alt r1 r2 => nullable r1 || nullable r2
  | Star _ => true
  end.

(** The derivative of [r] by the character [c]. *)
Fixpoint deriv (c : ascii) (r : regex) : regex :=
  match r with
  | Never => Never
  | Eps => Never
  | Class f => if f c then Eps else Never
  | Cat r1 r2 =>
      if nullable r1 then Alt (Cat (deriv c r1) r2) (deriv c r2)
      else Cat (deriv c r1) r2
  | Alt r1 r2 => Alt (deriv c r1) (deriv c r2)
  | Star r1 => Cat (deriv c r1) (Star r1)
  end.

(** [re.MatchString(s)] for an expression [^r] anchored at the start only:
    some prefix of [s] matches [r]. *)
Fixpoint matchPrefix (r : regex) (s : bytes) : bool :=
  nullable r ||
  match s with
  | [] => false
  | c :: s' => matchPrefix (deriv c r) s'
  end.

(** The denotation of an expression: the strings it matches. *)
Inductive matches : regex -> bytes -> Prop :=
| MEps : matches Eps []
| MClass f c : f c = true -> matches (Class f) [c]
| MCat r1 r2 s1 s2 : matches r1 s1 -> matches r2 s2 -> matches (Cat r1 r2) (s1 ++ s2)
| MAltL r1 r2 s : matches r1 s -> matches (Alt r1 r2) s
| MAltR r1 r2 s : matches r2 s -> matches (Alt r1 r2) s
| MStar0 r : matches (Star r) []
| MStarS r s1 s2 : matches r s1 -> matches (Star r) s2 -> matches (Star r) (s1 ++ s2).

(** const atext = "[a-zA-Z0-9!#$%&'*+-/=?^_`{|}~]"; in it [+-/] is the
    range from [+] to [/], which holds [+ , - . /]. *)
Definition atext (c : ascii) : bool :=
  inRange "a" "z" c || inRange "A" "Z" c || inRange "0" "9" c
  || existsb (Ascii.eqb c) ["!"; "#"; "$"; "%"; "&"; "'"; "*"]
  || inRange "+" "/" c
  || existsb (Ascii.eqb c) ["="; "?"; "^"; "_"; "`"; "{"; "|"; "}"; "~"].

(** The class [\s] on bytes. *)
Definition reSpace (c : ascii) : bool := perlSpace (ncode c).

(** messageIdRe =
    [^\s*<] atext [+(?:\.] atext [+)*@] atext [+(?:\.] atext [+)>\s*] *)
Definition messageIdRe : regex :=
  Cat (Star (Class reSpace))
   (Cat (Chr "<")
    (Cat (Plus (Class atext))
     (Cat (Star (Cat (Chr ".") (Plus (Class atext))))
      (Cat (Chr "@")
       (Cat (Plus (Class atext))
        (Cat (Cat (Chr ".") (Plus (Class atext)))
         (Cat (Chr ">")
              (Star (Class reSpace))))))))).

(** [strings.Split(s, sep)] for a one-byte separator: the pieces between
    the separators, one piece when there is none. *)
Fixpoint Split (sep : ascii) (s : bytes) : list bytes :=
  match s with
  | [] => [[]]
  | c :: s' =>
      if Ascii.eqb c sep then [] :: Split sep s'
      else match Split sep s' with
           | [] => [[c]]
           | p :: ps => (c :: p) :: ps
           end
  end.

(* ================================================================== *)
(** * generate.go: the validator and Set *)
(* ================================================================== *)

(** isAscii checks whether all characters in a string are low ASCII. *)
Fixpoint isAscii (s : bytes) : bool :=
  match s with
  | [] => true
  | c :: s' => if 127 <? code c then false else isAscii s'
  end.

Definition validMessageId (s : bytes) : option error :=
  if matchPrefix messageIdRe s then None else Some (ErrMessageID s).

Fixpoint validMessageIdLoop (ids : list bytes) : option error :=
  match ids with
  | [] => None
  | id :: ids' =>
      match validMessageId id with
      | Some err => Some err
      | None => validMessageIdLoop ids'
      end
  end.

Definition validMessageIdList (s : bytes) : option error :=
  validMessageIdLoop (Split COMMA s).

Section Validator.
Context `{MailLib}.

Definition validDate (s : bytes) : option error :=
  match ParseDate s with
  | None => None
  | Some err => Some (ErrDate s err)
  end.

(** checkHeader decides whether [value] has the syntax of [headerType];
    [None] is Go's nil error.  (The default branch of the switch is out of
    reach: the type has the ten constants only.) *)
Definition checkHeader (headerType : HeaderType) (value : bytes) : option error :=
  let value := TrimSpace value in
  match headerType with
  | HeaderTypeUnstructured | HeaderTypePhraseList => None
  | HeaderTypeOpaque | HeaderTypeReceived =>
      if isAscii value then None else Some ErrNonAscii
  | HeaderTypeReturnPath =>
      if bool_decide (value = str "<>") then None
      else match ParseAddress value with
           | inr err => Some (ErrReturnPath value (Some err))
           | inl addr =>
               if bool_decide (AddressName addr ≠ []) then Some (ErrReturnPath value None)
               else None
           end
  | HeaderTypeDate => validDate value
  | HeaderTypeMailbox =>
      match ParseAddress value with
      | inl _ => None
      | inr err => Some (ErrMailbox value err)
      end
  | HeaderTypeMailboxList =>
      match ParseAddressList value with
      | inl _ => None
      | inr err => Some (ErrMailboxList value err)
      end
  | HeaderTypeMessageID => validMessageId value
  | HeaderTypeMessageIDList => validMessageIdList value
  end.

(** Check validates a name and a value against the registry. *)
Definition Check (name value : bytes) : option error :=
  match HeaderSyntax !! CanonicalMIMEHeaderKey name with
  | None => None
  | Some headerType => checkHeader (Type_ headerType) value
  end.

(** The search loop of Set over [h.Headers]: at the first entry under
    [canonKey], the slice with [h.Headers[i]] overwritten. *)
Fixpoint setLoop (canonKey value : bytes) (i : nat) (todo hs : list KV)
    : option (list KV) :=
  match todo with
  | [] => None
  | v :: todo' =>
      if bool_decide (Key v = canonKey)
      then Some (<[i := mkKV canonKey value]> hs)
      else setLoop canonKey value (S i) todo' hs
  end.

(** Set sets a standard header, replacing any existing one.  The result is
    the header after the call and the error returned. *)
Definition Header_Set (h : Header) (key value : bytes) : Header * option error :=
  let canonKey := CanonicalMIMEHeaderKey key in
  match HeaderSyntax !! canonKey with
  | None => (h, Some (ErrNotStandard canonKey))
  | Some syntax =>
      match (if bool_decide (value ≠ []) then checkHeader (Type_ syntax) value
             else None) with
      | Some err => (h, Some (ErrInvalidValue key err))
      | None =>
          match setLoop canonKey value 0 (Headers h) (Headers h) with
          | Some hs => (mkHeader hs, None)
          | None => (mkHeader (Headers h ++ [mkKV canonKey value]), None)
          end
      end
  end.

End Validator.

(* ================================================================== *)
(** * reader.go: ReadHeader *)
(* ================================================================== *)

(** A [textproto.Reader], seen through [ReadContinuedLineBytes]: the results
    of the calls still to come, each a logical line and an error.  After
    the last one the stream is at its end and the call returns no line and
    io.EOF. *)
Definition Reader := list (bytes * option error).

Definition ReadContinuedLineBytes (r : Reader) : (bytes * option error) * Reader :=
  match r with
  | [] => (([], Some ErrEOF), [])
  | x :: r' => (x, r')
  end.

(** [bytes.IndexByte]: the index of the first [c] in [s], or -1. *)
Fixpoint IndexByte (s : bytes) (c : ascii) : Z :=
  match s with
  | [] => (-1)%Z
  | x :: s' =>
      if Ascii.eqb x c then 0%Z
      else let i := IndexByte s' c in
           if (i <? 0)%Z then (-1)%Z else (i + 1)%Z
  end.

(** for endKey > 0 && kv[endKey-1] == ' ' { endKey-- } *)
Fixpoint trimKeyEnd (kv : bytes) (endKey : nat) : nat :=
  match endKey with
  | 0 => 0
  | S e => if Ascii.eqb (byteAt kv e) SP then trimKeyEnd kv e else endKey
  end.

Fixpoint countWhile (p : ascii -> bool) (l : bytes) : nat :=
  match l with
  | [] => 0
  | c :: l' => if p c then S (countWhile p l') else 0
  end.

(** for i < len(val) && p(val[i]) { i++ } *)
Definition advanceWhile (p : ascii -> bool) (val : bytes) (i : nat) : nat :=
  i + countWhile p (drop i val).

Definition isSpaceOrTab (c : ascii) : bool := Ascii.eqb c SP || Ascii.eqb c TAB.

(** The loop of ReadHeader; it ends with the reader, whose last call returns
    an empty line. *)
Fixpoint readLoop (r : Reader) (m : Header) : Header * option error :=
  match r with
  | [] => (m, Some ErrEOF)
  | (kv, err) :: r' =>
      if length kv =? 0 then (m, err)
      else
        let i := IndexByte kv COLON in
        if (i <? 0)%Z then (m, Some (ErrMalformedLine kv))
        else
          let i := Z.to_nat i in
          let endKey := trimKeyEnd kv i in
          let key := CanonicalMIMEHeaderKey (take endKey kv) in
          if bool_decide (key = []) then readLoop r' m
          else
            let i := S i in
            let i := advanceWhile isSpaceOrTab kv i in
            let value := drop i kv in
            let m := Add m key value in
            match err with
            | Some e => (m, Some e)
            | None => readLoop r' m
            end
  end.

(** ReadHeader reads a MIME-style header from r. *)
Definition ReadHeader (r : Reader) : Header * option error :=
  readLoop r (mkHeader []).

(* ================================================================== *)
(** * generate.go: writeHeader and WriteTo *)
(* ================================================================== *)

(** The writer is the buffer of [Bytes]: what has been written so far.
    Writing to a buffer appends and does not fail. *)
Definition Writer := bytes.

Definition Write (w : Writer) (p : bytes) : Writer := w ++ p.

Definition isCRLF (v : ascii) : bool := Ascii.eqb v CR || Ascii.eqb v LF.

Definition isFoldSpace (v : ascii) : bool :=
  Ascii.eqb v SP || Ascii.eqb v TAB || Ascii.eqb v VT || Ascii.eqb v FF.

(** How the folding loop ends: it runs to the end of the value (or breaks),
    leaving [tokenStart], [column] and the writer, or it returns an error. *)
Inductive loopResult :=
| LoopDone (tokenStart column : nat) (w : Writer)
| LoopError (err : error) (w : Writer).

(** The loop [for i := 0; i < len(val); i++] of writeHeader, from index
    [i] on. *)
Equations? foldLoop (val : bytes) (i tokenStart column : nat) (inString : bool)
    (w : Writer) : loopResult by wf (length val - i) lt :=
foldLoop val i tokenStart column inString w with le_lt_dec (length val) i := {
  | left _ => LoopDone tokenStart column w
  | right _ =>
      let v := byteAt val i in
      if Ascii.eqb v DQUOTE then
        foldLoop val (S i) tokenStart column (negb inString) w
      else if inString then
        if isCRLF v then LoopError (ErrQuotedCRLF i) w
        else foldLoop val (S i) tokenStart column inString w
      else if isCRLF v then
        let tok := slice val tokenStart i in
        let i' := advanceWhile isCRLF val i in
        if 0 <? length tok then
          let w := Write w tok in
          let column := column + length tok in
          if length val <=? i' then LoopDone i' column w
          else if isSpaceOrTab (byteAt val i') then
            foldLoop val (S i') i' 0 inString (Write w [CR; LF])
          else
            foldLoop val (S i') i' 1 inString (Write w [CR; LF; TAB])
        else foldLoop val (S i') i' column inString w
      else if isFoldSpace v then
        let tok := slice val tokenStart i in
        if (78 <? column + length tok) && negb (tokenStart =? 0) then
          foldLoop val (S i) i (0 + length tok) inString (Write (Write w CRLF) tok)
        else
          foldLoop val (S i) i (column + length tok) inString (Write w tok)
      else foldLoop val (S i) tokenStart column inString w
}.
Proof.
  all: try subst i'; unfold advanceWhile; lia.
Qed.

(** The end of writeHeader: the last token and the closing line break. *)
Definition flushTail (val : bytes) (tokenStart column : nat) (w : Writer) : Writer :=
  let '(w, column) :=
    if tokenStart <? length val then
      let tok := drop tokenStart val in
      let '(w, column) :=
        if (78 <? column + length tok) && negb (tokenStart =? 0) && (1 <? column)
        then (Write w CRLF, 0) else (w, column) in
      (Write w tok, column + length tok)
    else (w, column) in
  if negb (column =? 0) then Write w CRLF else w.

(** [strings.Join]. *)
Fixpoint Join (elems : list bytes) (sep : bytes) : bytes :=
  match elems with
  | [] => []
  | [e] => e
  | e :: elems' => e ++ sep ++ Join elems' sep
  end.

Section Writer.
Context `{MailLib}.

(** The switch on the header type in writeHeader: the value to fold, or
    the error of the address parser. *)
Definition prepareValue (headerType : HeaderType) (value : bytes) (o : Options)
    : bytes + error :=
  match headerType with
  | HeaderTypeUnstructured | HeaderTypePhraseList =>
      if negb (isAscii value) && negb (NoEscape o) then inl (QEncode value)
      else inl value
  | HeaderTypeOpaque | HeaderTypeReceived | HeaderTypeReturnPath | HeaderTypeDate
  | HeaderTypeMessageID | HeaderTypeMessageIDList => inl value
  | HeaderTypeMailbox =>
      match ParseAddress value with
      | inr err => inr (ErrParse err)
      | inl addr => inl (AddressString addr)
      end
  | HeaderTypeMailboxList =>
      match ParseAddressList value with
      | inr err => inr (ErrParse err)
      | inl addrs => inl (Join (map AddressString addrs) (str ", "))
      end
  end.

(** The folding of a prepared value from [column] on. *)
Definition foldValue (w : Writer) (column : nat) (value : bytes)
    : Writer * option error :=
  if length value + column <? 78 then
    (Write (Write w value) CRLF, None)
  else
    match foldLoop value 0 0 column false w with
    | LoopError err w => (w, Some err)
    | LoopDone tokenStart column w => (flushTail value tokenStart column w, None)
    end.

(** writeHeader writes one header to [w]; the result is the writer after
    the call and the error returned. *)
Definition writeHeader (w : Writer) (headerType : HeaderType) (key value : bytes)
    (o : Options) : Writer * option error :=
  let value := TrimSpace value in
  let column := length key + 2 in
  let w := Write w key in
  let w := Write w (str ": ") in
  match prepareValue headerType value o with
  | inr err => (w, Some err)
  | inl value => foldValue w column value
  end.

(** The loop of WriteTo over the entries, with the set [seen] of the unique
    keys written so far. *)
Fixpoint writeLoop (o : Options) (hs : list KV) (seen : gset bytes) (w : Writer)
    : Writer * option error :=
  match hs with
  | [] => (w, None)
  | h :: hs' =>
      if negb (RenderBlank o) && bool_decide (Value h = []) then writeLoop o hs' seen w
      else if bool_decide (Key h = HdrBcc) && negb (RenderBCC o) then writeLoop o hs' seen w
      else if bool_decide (Key h = HdrReturnPath) && negb (RenderReturnPath o)
      then writeLoop o hs' seen w
      else
        match HeaderSyntax !! Key h with
        | Some syn =>
            if Unique syn && bool_decide (Key h ∈ seen) then writeLoop o hs' seen w
            else
              let seen := if Unique syn then {[Key h]} ∪ seen else seen in
              match writeHeader w (Type_ syn) (Key h) (Value h) o with
              | (w, Some err) => (w, Some (ErrField (Key h) err))
              | (w, None) => writeLoop o hs' seen w
              end
        | None =>
            match writeHeader w HeaderTypeOpaque (Key h) (Value h) o with
            | (w, Some err) => (w, Some (ErrField (Key h) err))
            | (w, None) => writeLoop o hs' seen w
            end
        end
  end.

Definition WriteTo (h : Header) (w : Writer) (o : Options) : Writer * option error :=
  writeLoop o (Headers h) ∅ w.

(** Bytes renders the header into a fresh buffer. *)
Definition Bytes (h : Header) (o : Options) : option bytes * option error :=
  match WriteTo h [] o with
  | (_, Some err) => (None, Some err)
  | (buff, None) => (Some buff, None)
  end.

End Writer.

(* ================================================================== *)
(** * Specifications *)
(* ================================================================== *)

(** No entry of [hs] is under the key [k]. *)
Definition noKey (k : bytes) (hs : list KV) : Prop :=
  Forall (fun e => Key e ≠ k) hs.

(** ** The reader, as the specification describes it *)

(** What a read of the stream brings: a logical line (the empty line is the
    blank line that ends the headers) or an error of the stream.  After
    the last event the stream is at its end. *)
Inductive event :=
| Line (line : bytes)
| StreamError (err : error).

(** The reader that brings the events [evs]. *)
Definition readerOf (evs : list event) : Reader :=
  map (fun ev => match ev with
                 | Line line => (line, None)
                 | StreamError err => ([], Some err)
                 end) evs.

(** The text before the first colon of a line and the text after it. *)
Fixpoint cutAtColon (line : bytes) : option (bytes * bytes) :=
  match line with
  | [] => None
  | c :: rest =>
      if Ascii.eqb c COLON then Some ([], rest)
      else match cutAtColon rest with
           | Some (before, after) => Some (c :: before, after)
           | None => None
           end
  end.

Definition trimTrailingSpaces (s : bytes) : bytes :=
  dropWhileEnd (fun c => Ascii.eqb c SP) s.

Definition skipLeadingBlanks (s : bytes) : bytes := dropWhile isSpaceOrTab s.

(** What one logical line amounts to. *)
Inductive lineOutcome :=
| Malformed
| Skipped
| Entry (kv : KV).

Definition parseLine (line : bytes) : lineOutcome :=
  match cutAtColon line with
  | None => Malformed
  | Some (before, after) =>
      match trimTrailingSpaces before with
      | [] => Skipped
      | rawKey => Entry (mkKV (CanonicalMIMEHeaderKey rawKey) (skipLeadingBlanks after))
      end
  end.

(** The header and the error that reading the events gives, with the
    entries [acc] read so far: the reading stops normally, without an
    error, on a blank line or at the end of the stream, and returns the
    header built so far with the error on a malformed line or an error of
    the stream. *)
Fixpoint readSpec (evs : list event) (acc : list KV) : Header * option error :=
  match evs with
  | [] => (mkHeader acc, None)
  | StreamError err :: _ => (mkHeader acc, Some err)
  | Line [] :: _ => (mkHeader acc, None)
  | Line line :: evs' =>
      match parseLine line with
      | Malformed => (mkHeader acc, Some (ErrMalformedLine line))
      | Skipped => readSpec evs' acc
      | Entry kv => readSpec evs' (acc ++ [kv])
      end
  end.

(** The reading of the events comes to the end of the stream: no blank
    line, malformed line or error of the stream stops it before. *)
Fixpoint reachesEnd (evs : list event) : bool :=
  match evs with
  | [] => true
  | StreamError _ :: _ => false
  | Line [] :: _ => false
  | Line line :: evs' =>
      match parseLine line with
      | Malformed => false
      | _ => reachesEnd evs'
      end
  end.

(** ** The writer, as the specification describes it *)

(** An entry passes the options: it is not a blank value with RenderBlank
    off, not Bcc with RenderBCC off, not Return-Path with RenderReturnPath
    off. *)
Definition visible (o : Options) (e : KV) : bool :=
  negb (negb (RenderBlank o) && bool_decide (Value e = []))
  && negb (bool_decide (Key e = HdrBcc) && negb (RenderBCC o))
  && negb (bool_decide (Key e = HdrReturnPath) && negb (RenderReturnPath o)).

(** The key is registered as unique. *)
Definition isUnique (k : bytes) : bool :=
  match HeaderSyntax !! k with
  | Some syn => Unique syn
  | None => false
  end.

(** The semantic type of a key: the registered one, else Opaque. *)
Definition typeOf (k : bytes) : HeaderType :=
  match HeaderSyntax !! k with
  | Some syn => Type_ syn
  | None => HeaderTypeOpaque
  end.

(** Some entry of [rendered] is under the key [k]. *)
Definition hasKey (k : bytes) (rendered : list KV) : bool :=
  existsb (fun p => bool_decide (Key p = k)) rendered.

(** The entries of [hs] to render, in order, [rendered] being the entries
    rendered before them: an entry is rendered when it passes the options,
    unless its key is unique and an entry under it has been rendered. *)
Fixpoint selectSpec (o : Options) (rendered hs : list KV) : list KV :=
  match hs with
  | [] => []
  | e :: hs' =>
      if visible o e && negb (isUnique (Key e) && hasKey (Key e) rendered)
      then e :: selectSpec o (rendered ++ [e]) hs'
      else selectSpec o rendered hs'
  end.

Section RenderSpec.
Context `{MailLib}.

(** The entries [es] rendered one after the other, up to the first error. *)
Fixpoint renderAll (o : Options) (es : list KV) (w : Writer) : Writer * option error :=
  match es with
  | [] => (w, None)
  | e :: es' =>
      match writeHeader w (typeOf (Key e)) (Key e) (Value e) o with
      | (w, Some err) => (w, Some (ErrField (Key e) err))
      | (w, None) => renderAll o es' w
      end
  end.

End RenderSpec.

(** ** Canonical form of a key, as the specification describes it *)


Definition toLowerByte (c : ascii) : ascii :=
  if inRange "A" "Z" c then ascii_of_nat (code c + toLower) else c.




(** A key of token bytes only. *)
Definition tokenKey (key : bytes) : Prop :=
  Forall (fun c => validHeaderFieldByte c = true) key.


Section Operations.
Context `{MailLib}.



End Operations.

(** ** Pieces of a string *)

(** The string ends, or goes on with a byte that is no continuation byte. *)
Definition stopAt (t : bytes) : Prop :=
  match t with
  | [] => True
  | b :: _ => isCont b = false
  end.

(** Two strings that agree up to a place where both stop: the first rune
    of [b :: t] and of [b :: t'] are then the same. *)
Inductive sim : bytes -> bytes -> Prop :=
| sim_stop t t' : stopAt t -> stopAt t' -> sim t t'
| sim_cons b t t' : sim t t' -> sim (b :: t) (b :: t').

(** A list of pieces that are the encoded runes of their concatenation. *)
Inductive chunked : list bytes -> Prop :=
| chunked_nil : chunked []
| chunked_cons c cs :
    c ≠ [] -> snd (decodeRune (c ++ concat cs)) = length c -> chunked cs ->
    chunked (c :: cs).

(** Every piece in the class is one space, and no two of them are
    neighbours; [prev] says that the piece before the list is in the
    class. *)
Fixpoint collapsed (prev : bool) (cs : list bytes) : Prop :=
  match cs with
  | [] => True
  | c :: cs' =>
      if whitespaceClass c then c = [SP] /\ prev = false /\ collapsed true cs'
      else collapsed false cs'
  end.

(** ** Lines of the output *)

(** No CR and no LF in the string. *)
Definition noBreak (s : bytes) : Prop := Forall (fun c => isCRLF c = false) s.

Definition consHead (c : ascii) (ls : list bytes) : list bytes :=
  match ls with
  | [] => [[c]]
  | l :: ls' => (c :: l) :: ls'
  end.

(** The output cut at every CRLF: the lines before their CRLF, then what
    comes after the last CRLF (empty when the output ends with a CRLF). *)
Fixpoint lines (s : bytes) : list bytes :=
  match s with
  | [] => [[]]
  | c :: s' =>
      match s' with
      | [] => [[c]]
      | c2 :: s'' =>
          if Ascii.eqb c CR && Ascii.eqb c2 LF then [] :: lines s''
          else consHead c (lines s')
      end
  end.

(** The lines, each with its CRLF, one after the other. *)
Definition joinLines (ls : list bytes) : bytes :=
  concat (map (fun l => l ++ CRLF) ls).

(** The scan of writeHeader over a piece of a value, out of or in a quoted
    string at its start: [None] when it meets a white space character out
    of quoted strings (a place to fold), else whether it ends in a quoted
    string. *)
Fixpoint quoteScan (inString : bool) (t : bytes) : option bool :=
  match t with
  | [] => Some inString
  | v :: t' =>
      if Ascii.eqb v DQUOTE then quoteScan (negb inString) t'
      else if inString then quoteScan inString t'
      else if isFoldSpace v then None
      else quoteScan inString t'
  end.

(** A single token: no place to fold in it. *)
Definition singleToken (t : bytes) : Prop := is_Some (quoteScan false t).

Definition allFoldSpace (pre : bytes) : Prop :=
  Forall (fun c => isFoldSpace c = true) pre.

(** The first line is within 78 characters, or it is the key, the colon
    and space, and a single token (after white space, if the value starts
    with some). *)
Definition firstLineOK (key l : bytes) : Prop :=
  length l <= 78
  \/ exists pre t, l = key ++ str ": " ++ pre ++ t /\ allFoldSpace pre /\ singleToken t.

(** A continuation line is within 78 characters, or it is white space and
    a single token. *)
Definition contLineOK (l : bytes) : Prop :=
  length l <= 78
  \/ exists pre t, l = pre ++ t /\ allFoldSpace pre /\ singleToken t.

(** The words of a line: the pieces between its white space characters. *)
Fixpoint words (l : bytes) : list bytes :=
  match l with
  | [] => [[]]
  | c :: l' => if isFoldSpace c then [] :: words l' else consHead c (words l')
  end.

(** A line as the specification wants it: at most 78 characters, unless a
    single word of it is longer than that by itself. *)
Definition lineWithinLimit (l : bytes) : Prop :=
  length l <= 78 \/ Exists (fun t => 78 < length t) (words l).

(** A continuation line as the specification wants it: it begins with a
    space or a tab. *)
Definition beginsWithFold (l : bytes) : Prop :=
  match l with
  | [] => False
  | c :: _ => isSpaceOrTab c = true
  end.

(** The lines written so far are as they should be: [closed] are the lines
    that have their CRLF, [cur] is the line being written. *)
Definition shape (key : bytes) (closed : list bytes) (cur : bytes) : Prop :=
  match closed with
  | [] => firstLineOK key cur /\ 2 <= length cur
  | d :: ds =>
      firstLineOK key d /\ Forall contLineOK ds /\ contLineOK cur
      /\ exists c l, cur = c :: l /\ isFoldSpace c = true
  end.

(** The state of the folding loop at index [i] of [val], for the writer
    that held [w0] before the header: the lines written and closed, the
    line being written, and the token that waits. *)
Inductive foldInv (key val : bytes) (w0 : Writer)
  : nat -> nat -> nat -> bool -> Writer -> Prop :=
| FoldInv i tokenStart column inString closed cur pre t :
    tokenStart <= i -> i <= length val ->
    slice val tokenStart i = pre ++ t ->
    allFoldSpace pre -> quoteScan false t = Some inString ->
    (tokenStart ≠ 0 -> pre ≠ []) ->
    noBreak cur -> Forall noBreak closed ->
    column = length cur ->
    (tokenStart = 0 -> closed = [] /\ cur = key ++ str ": ") ->
    shape key closed cur ->
    foldInv key val w0 i tokenStart column inString (w0 ++ joinLines closed ++ cur).

(** Options{}: every option off. *)
Definition defaultOptions : Options := mkOptions false false false false.

#[export] Instance noBreak_dec s : Decision (noBreak s).
Proof. unfold noBreak. apply _. Defined.

#[export] Instance lineWithinLimit_dec l : Decision (lineWithinLimit l).
Proof. unfold lineWithinLimit. apply _. Defined.

#[export] Instance beginsWithFold_dec l : Decision (beginsWithFold l).
Proof. destruct l; simpl; apply _. Defined.

(** ** The Message-ID rule, as the specification describes it *)

(** The atext class of the specification,
    [[A-Za-z0-9!#$%&'*+\-/=?^_`{|}~]]. *)
Definition atextSpec (c : ascii) : bool :=
  inRange "A" "Z" c || inRange "a" "z" c || inRange "0" "9" c
  || existsb (Ascii.eqb c)
       ["!"; "#"; "$"; "%"; "&"; "'"; "*"; "+"; "-"; "/"; "="; "?"; "^"; "_";
        "`"; "{"; "|"; "}"; "~"].

(** One or more runs of atext separated by single dots. *)
Definition dotAtomSpec : regex :=
  Cat (Plus (Class atextSpec)) (Star (Cat (Chr ".") (Plus (Class atextSpec)))).

(** Optional white space, [<], runs of atext, [@], runs of atext, [>],
    optional white space. *)
Definition messageIdSpec : regex :=
  Cat (Star (Class reSpace))
   (Cat (Chr "<")
    (Cat dotAtomSpec
     (Cat (Chr "@")
      (Cat dotAtomSpec
       (Cat (Chr ">") (Star (Class reSpace))))))).

(** The whole of [s] matches [r], and nothing else is in [s]. *)
Fixpoint matchWhole (r : regex) (s : bytes) : bool :=
  match s with
  | [] => nullable r
  | c :: s' => matchWhole (deriv c r) s'
  end.

(** A value of type MessageID is valid. *)
Definition validMessageIdSpec (s : bytes) : bool := matchWhole messageIdSpec s.

(** A value of type MessageIDList is valid: every piece between commas is
    a valid MessageID. *)
Definition validMessageIdListSpec (s : bytes) : bool :=
  forallb validMessageIdSpec (Split COMMA s).

(** ** message.go: ReadMessage *)

(** The loop of ReadHeader once more, with the reader as the last call of
    ReadContinuedLineBytes leaves it. *)
Fixpoint readLoopRest (r : Reader) (m : Header) : (Header * option error) * Reader :=
  match r with
  | [] => ((m, Some ErrEOF), [])
  | (kv, err) :: r' =>
      if length kv =? 0 then ((m, err), r')
      else
        let i := IndexByte kv COLON in
        if (i <? 0)%Z then ((m, Some (ErrMalformedLine kv)), r')
        else
          let i := Z.to_nat i in
          let endKey := trimKeyEnd kv i in
          let key := CanonicalMIMEHeaderKey (take endKey kv) in
          if bool_decide (key = []) then readLoopRest r' m
          else
            let i := S i in
            let i := advanceWhile isSpaceOrTab kv i in
            let value := drop i kv in
            let m := Add m key value in
            match err with
            | Some e => ((m, Some e), r')
            | None => readLoopRest r' m
            end
  end.

(** A message: its header and, as body, the reader after the header. *)
Record Message := mkMessage { MsgHeader : Header; Body : Reader }.

(** ReadMessage reads the header and leaves the rest as the body; it
    returns no message when ReadHeader returns an error. *)
Definition ReadMessage (r : Reader) : option Message * option error :=
  match readLoopRest r (mkHeader []) with
  | ((_, Some err), _) => (None, Some err)
  | ((hdr, None), tp) => (Some (mkMessage hdr tp), None)
  end.

(** The string does not begin with a space or a tab. *)
Definition noLeadingBlank (s : bytes) : Prop :=
  match s with
  | [] => True
  | c :: _ => isSpaceOrTab c = false
  end.


(** A quoted string of 80 letters with a line break in it. *)
Definition brokenQuote : bytes := DQUOTE :: repeat "a" 80 ++ [LF] ++ str "b".

(** ** header.go: ToMap, AddressList and Date *)

(** [textproto.MIMEHeader]: a map from keys to the values under them. *)
Abbreviation MIMEHeader := (gmap bytes (list bytes)).

(** [MIMEHeader.Add]: [h[key] = append(h[key], value)] for the canonical
    form of [key]. *)
Definition MIMEHeader_Add (m : MIMEHeader) (key value : bytes) : MIMEHeader :=
  let key := CanonicalMIMEHeaderKey key in
  <[key := default [] (m !! key) ++ [value]]> m.

(** ToMap converts a Header to a textproto.MIMEHeader. *)
Definition ToMap (h : Header) : MIMEHeader :=
  foldl (fun m e => MIMEHeader_Add m (Key e) (Value e)) ∅ (Headers h).

(** The values of the entries whose key has the canonical form [k], in
    the order of the entries. *)
Definition valuesUnder (k : bytes) (hs : list KV) : list bytes :=
  Value <$> filter (fun e => CanonicalMIMEHeaderKey (Key e) = k) hs.

(** The errors of AddressList and Date. *)
Inductive mailError :=
| ErrHeaderNotPresent                (* mail.ErrHeaderNotPresent *)
| ErrMail (d : diagnostic).          (* the error of the parser *)

Section Fields.
Context `{MailLib}.

(** AddressList parses the named header field as a list of addresses. *)
Definition AddressList (h : Header) (key : bytes) : list Address + mailError :=
  let hdr := Get h key in
  if bool_decide (hdr = []) then inr ErrHeaderNotPresent
  else match ParseAddressList hdr with
       | inl l => inl l
       | inr d => inr (ErrMail d)
       end.

(** Date parses the Date header field; of its two results the error is
    kept. *)
Definition Date (h : Header) : option mailError :=
  let hdr := Get h (str "Date") in
  if bool_decide (hdr = []) then Some ErrHeaderNotPresent
  else match ParseDate hdr with
       | None => None
       | Some d => Some (ErrMail d)
       end.

End Fields.

(** ** headertype_enumer.go: the names of the header types *)

(** The constants of HeaderType as the integers [iota] gives them. *)
Definition HeaderType_int (t : HeaderType) : Z :=
  match t with
  | HeaderTypeUnstructured => 0
  | HeaderTypeMailbox => 1
  | HeaderTypeMailboxList => 2
  | HeaderTypeDate => 3
  | HeaderTypeReceived => 4
  | HeaderTypeMessageID => 5
  | HeaderTypeMessageIDList => 6
  | HeaderTypePhraseList => 7
  | HeaderTypeReturnPath => 8
  | HeaderTypeOpaque => 9
  end%Z.

Definition _HeaderTypeName : bytes :=
  str "unstructuredmailboxmailbox-listdatereceivedmessage-idmessage-id-listphrase-listreturn-pathopaque".

Definition _HeaderTypeIndex : list nat := [0; 12; 19; 31; 35; 43; 53; 68; 79; 90; 96].

(** [fmt.Sprintf] of an integer under the verb [%d]. *)
Definition fmtInt (i : Z) : bytes := str (NilEmpty.string_of_int (Z.to_int i)).

(** String is defined on every integer: a value that is no constant is
    printed with its number. *)
Definition HeaderType_String (i : Z) : bytes :=
  if bool_decide (i < 0 \/ i >= Z.of_nat (length _HeaderTypeIndex - 1))%Z
  then str "HeaderType(" ++ fmtInt i ++ str ")"
  else slice _HeaderTypeName (_HeaderTypeIndex !!! Z.to_nat i)
         (_HeaderTypeIndex !!! Z.to_nat (i + 1)).

Definition _HeaderTypeValues : list Z := [0; 1; 2; 3; 4; 5; 6; 7; 8; 9]%Z.

Definition _HeaderTypeNameToValueMap : gmap bytes Z :=
  list_to_map
    [ (slice _HeaderTypeName 0 12, 0); (slice _HeaderTypeName 12 19, 1);
      (slice _HeaderTypeName 19 31, 2); (slice _HeaderTypeName 31 35, 3);
      (slice _HeaderTypeName 35 43, 4); (slice _HeaderTypeName 43 53, 5);
      (slice _HeaderTypeName 53 68, 6); (slice _HeaderTypeName 68 79, 7);
      (slice _HeaderTypeName 79 90, 8); (slice _HeaderTypeName 90 96, 9) ]%Z.

Inductive enumError :=
| ErrNotHeaderType (s : bytes).      (* s does not belong to HeaderType values *)

(** HeaderTypeString retrieves an enum value from the enum constants string
    name. *)
Definition HeaderTypeString (s : bytes) : Z * option enumError :=
  match _HeaderTypeNameToValueMap !! s with
  | Some val => (val, None)
  | None => (0%Z, Some (ErrNotHeaderType s))
  end.

(** HeaderTypeValues returns all values of the enum. *)
Definition HeaderTypeValues : list Z := _HeaderTypeValues.

(** IsAHeaderType: whether the value is listed in the enum definition. *)
Definition IsAHeaderType (i : Z) : bool := existsb (Z.eqb i) _HeaderTypeValues.

(* ================================================================== *)
(** * Properties of Set *)
(* ================================================================== *)

(** The registry is looked up by evaluation, not unfolded by [simpl]. *)
Arguments HeaderSyntax : simpl never.
Arguments isUnique : simpl never.
Arguments typeOf : simpl never.
Arguments visible : simpl never.

Lemma setLoop_found k v pre old post i hs :
  noKey k pre ->
  setLoop k v i (pre ++ mkKV k old :: post) hs
  = Some (<[i + length pre := mkKV k v]> hs).
Proof.
  intros Hpre. revert i.
  induction Hpre as [|e pre He _ IH]; intros i; simpl.
  - rewrite bool_decide_true by reflexivity. by rewrite Nat.add_0_r.
  - rewrite bool_decide_false by assumption.
    rewrite IH. do 2 f_equal. lia.
Qed.

Lemma setLoop_absent k v i todo hs :
  noKey k todo -> setLoop k v i todo hs = None.
Proof.
  intros Hno. revert i.
  induction Hno as [|e todo He _ IH]; intros i; simpl; [done|].
  by rewrite bool_decide_false.
Qed.

Section SetProperties.
Context `{MailLib}.

(** C4.  Set canonicalizes the key.  It returns an error, and leaves the
    header as it is, when the canonical key is not in the registry, and
    when the value is not empty and the validator of the key's type rejects
    it.  Otherwise it replaces the first entry under the canonical key,
    leaving every other entry (later duplicates too) in place, or appends a
    new entry when there is none under that key. *)
Theorem Set_replaces_first_or_appends (h : Header) (key value : bytes) :
  let canonKey := CanonicalMIMEHeaderKey key in
  (HeaderSyntax !! canonKey = None ->
     Header_Set h key value = (h, Some (ErrNotStandard canonKey)))
  /\ (forall syn err,
        HeaderSyntax !! canonKey = Some syn ->
        value ≠ [] -> checkHeader (Type_ syn) value = Some err ->
        Header_Set h key value = (h, Some (ErrInvalidValue key err)))
  /\ (forall syn pre old post,
        HeaderSyntax !! canonKey = Some syn ->
        (value ≠ [] -> checkHeader (Type_ syn) value = None) ->
        Headers h = pre ++ mkKV canonKey old :: post -> noKey canonKey pre ->
        Header_Set h key value
        = (mkHeader (pre ++ mkKV canonKey value :: post), None))
  /\ (forall syn,
        HeaderSyntax !! canonKey = Some syn ->
        (value ≠ [] -> checkHeader (Type_ syn) value = None) ->
        noKey canonKey (Headers h) ->
        Header_Set h key value
        = (mkHeader (Headers h ++ [mkKV canonKey value]), None)).
Proof.
  intros canonKey. unfold Header_Set. fold canonKey.
  repeat split.
  - intros ->. reflexivity.
  - intros syn err -> Hne Hck.
    rewrite bool_decide_true by assumption. by rewrite Hck.
  - intros syn pre old post -> Hck Hh Hpre.
    assert ((if bool_decide (value ≠ []) then checkHeader (Type_ syn) value
             else None) = None) as ->.
    { case_bool_decide; [by apply Hck|done]. }
    rewrite Hh at 1. rewrite setLoop_found by assumption.
    rewrite Hh. simpl.
    rewrite insert_app_r_alt by lia.
    by rewrite Nat.sub_diag.
  - intros syn -> Hck Hno.
    assert ((if bool_decide (value ≠ []) then checkHeader (Type_ syn) value
             else None) = None) as ->.
    { case_bool_decide; [by apply Hck|done]. }
    by rewrite setLoop_absent.
Qed.

(** C9.  Whenever Set returns an error, the entries of the header are what
    they were before the call. *)
Theorem Set_error_leaves_header (h h' : Header) (key value : bytes) (err : error) :
  Header_Set h key value = (h', Some err) -> h' = h.
Proof.
  unfold Header_Set.
  destruct (HeaderSyntax !! CanonicalMIMEHeaderKey key) as [syn|].
  - destruct (if bool_decide (value ≠ []) then _ else _).
    + by intros [= <- _].
    + destruct (setLoop _ _ _ _ _); discriminate.
  - by intros [= <- _].
Qed.

End SetProperties.

Lemma Set_replaces_first_or_appends_witness :
  Header_Set
    (mkHeader [mkKV (str "A") (str "1"); mkKV (str "Subject") (str "x");
               mkKV (str "Subject") (str "y")])
    (str "subject") (str "foo")
  = (mkHeader [mkKV (str "A") (str "1"); mkKV (str "Subject") (str "foo");
               mkKV (str "Subject") (str "y")], None).
Proof.
  apply (proj1 (proj2 (proj2
    (Set_replaces_first_or_appends
       (mkHeader [mkKV (str "A") (str "1"); mkKV (str "Subject") (str "x");
                  mkKV (str "Subject") (str "y")])
       (str "subject") (str "foo"))))
    (mkSyntax false true HeaderTypeUnstructured)
    [mkKV (str "A") (str "1")] (str "x") [mkKV (str "Subject") (str "y")]).
  - vm_compute. reflexivity.
  - intros _. reflexivity.
  - vm_compute. reflexivity.
  - repeat constructor. vm_compute. discriminate.
Defined.

Lemma Set_error_leaves_header_witness :
  fst (Header_Set (mkHeader [mkKV (str "A") (str "1")]) (str "x-foo") (str "bar"))
  = mkHeader [mkKV (str "A") (str "1")].
Proof.
  apply (Set_error_leaves_header (mkHeader [mkKV (str "A") (str "1")]) _
           (str "x-foo") (str "bar") (ErrNotStandard (str "X-Foo"))).
  vm_compute. reflexivity.
Defined.

(* ================================================================== *)
(** * Properties of CanonicalMIMEHeaderKey *)
(* ================================================================== *)

(** Facts on single bytes are settled by running through the 256 bytes. *)
Ltac by_bytes c :=
  destruct c as [[] [] [] [] [] [] [] []]; vm_compute; try reflexivity;
  try discriminate; try tauto.

Lemma canonByte_valid u c :
  validHeaderFieldByte c = true -> validHeaderFieldByte (canonByte u c) = true.
Proof. destruct u; by_bytes c. Qed.

Lemma canonByte_idem u c : canonByte u (canonByte u c) = canonByte u c.
Proof. destruct u; by_bytes c. Qed.

Lemma canonLoop_length u a : length (canonLoop u a) = length a.
Proof. revert u. induction a as [|c a IH]; intros u; simpl; [done|]. by rewrite IH. Qed.

Lemma canonLoop_valid u a :
  Forall (fun c => validHeaderFieldByte c = true) a ->
  Forall (fun c => validHeaderFieldByte c = true) (canonLoop u a).
Proof.
  intros Ha. revert u. induction Ha as [|c a Hc _ IH]; intros u; simpl.
  - constructor.
  - constructor; [by apply canonByte_valid | apply IH].
Qed.

Lemma canonLoop_idem u a : canonLoop u (canonLoop u a) = canonLoop u a.
Proof.
  revert u. induction a as [|c a IH]; intros u; simpl; [done|].
  rewrite canonByte_idem. by rewrite IH.
Qed.

Lemma scanKey_valid a :
  Forall (fun c => validHeaderFieldByte c = true) a -> scanKey false a = Some false.
Proof. induction 1 as [|c a Hc _ IH]; simpl; [done|]. by rewrite Hc. Qed.

Lemma scanKey_true a : scanKey true a ≠ Some false.
Proof.
  induction a as [|c a IH]; simpl; [done|].
  destruct (validHeaderFieldByte c); [done|]. by destruct (Ascii.eqb c SP).
Qed.

Lemma scanKey_invalid a :
  ¬ Forall (fun c => validHeaderFieldByte c = true) a -> scanKey false a ≠ Some false.
Proof.
  induction a as [|c a IH]; simpl; intros Hn.
  - destruct Hn. constructor.
  - destruct (validHeaderFieldByte c) eqn:Hc.
    + apply IH. intros Ha. apply Hn. by constructor.
    + destruct (Ascii.eqb c SP); [apply scanKey_true | done].
Qed.

Lemma canonicalMIMEHeaderKey_valid a :
  Forall (fun c => validHeaderFieldByte c = true) a ->
  fst (canonicalMIMEHeaderKey a) = canonLoop true a.
Proof. intros Ha. unfold canonicalMIMEHeaderKey. by rewrite scanKey_valid. Qed.

Lemma canonicalMIMEHeaderKey_invalid a :
  ¬ Forall (fun c => validHeaderFieldByte c = true) a ->
  fst (canonicalMIMEHeaderKey a) = a.
Proof.
  intros Ha. unfold canonicalMIMEHeaderKey.
  pose proof (scanKey_invalid a Ha).
  by destruct (scanKey false a) as [[]|].
Qed.

Lemma quickCheck_cases s u r :
  quickCheck s u r = s \/ quickCheck s u r = fst (canonicalMIMEHeaderKey s).
Proof.
  revert u. induction r as [|c r IH]; intros u; simpl; [by left|].
  destruct (negb (validHeaderFieldByte c)); [by left|].
  destruct (u && inRange "a" "z" c); [by right|].
  destruct (negb u && inRange "A" "Z" c); [by right|].
  apply IH.
Qed.

Lemma canonByte_keep u c :
  u && inRange "a" "z" c = false -> negb u && inRange "A" "Z" c = false ->
  canonByte u c = c.
Proof. unfold canonByte. by intros -> ->. Qed.

Lemma quickCheck_kept s u r :
  Forall (fun c => validHeaderFieldByte c = true) r ->
  quickCheck s u r = fst (canonicalMIMEHeaderKey s)
  \/ (quickCheck s u r = s /\ canonLoop u r = r).
Proof.
  intros Hr. revert u. induction Hr as [|c r Hc _ IH]; intros u; simpl.
  - by right.
  - rewrite Hc. simpl.
    destruct (u && inRange "a" "z" c) eqn:E1; [by left|].
    destruct (negb u && inRange "A" "Z" c) eqn:E2; [by left|].
    rewrite canonByte_keep by assumption.
    destruct (IH (Ascii.eqb c HYPHEN)) as [->|[-> ->]]; [by left | by right].
Qed.

(** A key of token bytes is rewritten by the canonicalizing loop. *)
Lemma Canonical_valid s :
  Forall (fun c => validHeaderFieldByte c = true) s ->
  CanonicalMIMEHeaderKey s = canonLoop true s.
Proof.
  intros Hs. unfold CanonicalMIMEHeaderKey.
  destruct (quickCheck_kept s true s Hs) as [->|[-> ->]].
  - by apply canonicalMIMEHeaderKey_valid.
  - reflexivity.
Qed.

(** A key with any other byte is returned as it is. *)
Lemma Canonical_invalid s :
  ¬ Forall (fun c => validHeaderFieldByte c = true) s ->
  CanonicalMIMEHeaderKey s = s.
Proof.
  intros Hs. unfold CanonicalMIMEHeaderKey.
  destruct (quickCheck_cases s true s) as [->| ->]; [done|].
  by apply canonicalMIMEHeaderKey_invalid.
Qed.

Lemma all_valid_dec s :
  {Forall (fun c => validHeaderFieldByte c = true) s}
  + {¬ Forall (fun c => validHeaderFieldByte c = true) s}.
Proof. apply Forall_dec. intros c. destruct (validHeaderFieldByte c); [by left|by right]. Qed.

Lemma Canonical_idem s :
  CanonicalMIMEHeaderKey (CanonicalMIMEHeaderKey s) = CanonicalMIMEHeaderKey s.
Proof.
  destruct (all_valid_dec s) as [Hs|Hs].
  - rewrite (Canonical_valid s Hs).
    rewrite Canonical_valid by by apply canonLoop_valid.
    apply canonLoop_idem.
  - by rewrite !(Canonical_invalid s Hs).
Qed.

Lemma Canonical_length s : length (CanonicalMIMEHeaderKey s) = length s.
Proof.
  destruct (all_valid_dec s) as [Hs|Hs].
  - rewrite (Canonical_valid s Hs). apply canonLoop_length.
  - by rewrite (Canonical_invalid s Hs).
Qed.

Lemma Canonical_nil s : CanonicalMIMEHeaderKey s = [] <-> s = [].
Proof.
  split.
  - intros Hs. apply nil_length_inv. rewrite <- Canonical_length. by rewrite Hs.
  - by intros ->.
Qed.

(* ================================================================== *)
(** * Properties of ReadHeader *)
(* ================================================================== *)

Lemma IndexByte_ge s c : (-1 <= IndexByte s c)%Z.
Proof.
  induction s as [|x s IH]; simpl; [lia|].
  destruct (Ascii.eqb x c); [lia|].
  destruct (IndexByte s c <? 0)%Z eqn:E; lia.
Qed.

Lemma cutAtColon_None line :
  cutAtColon line = None -> (IndexByte line COLON < 0)%Z.
Proof.
  induction line as [|c rest IH]; simpl; [lia|].
  destruct (Ascii.eqb c COLON); [done|].
  destruct (cutAtColon rest) as [[before after]|]; [done|].
  intros _. specialize (IH eq_refl).
  destruct (IndexByte rest COLON <? 0)%Z eqn:E; lia.
Qed.

Lemma cutAtColon_Some line before after :
  cutAtColon line = Some (before, after) ->
  line = before ++ COLON :: after
  /\ IndexByte line COLON = Z.of_nat (length before).
Proof.
  revert before. induction line as [|c rest IH]; intros before; simpl; [done|].
  destruct (Ascii.eqb c COLON) eqn:Ec.
  - intros [= <- <-]. apply Ascii.eqb_eq in Ec. by subst c.
  - destruct (cutAtColon rest) as [[b a]|]; [|done].
    intros [= <- <-]. destruct (IH b eq_refl) as [-> Hi].
    split; [done|]. rewrite Hi.
    destruct (Z.of_nat (length b) <? 0)%Z eqn:E; simpl length; lia.
Qed.

Lemma trimKeyEnd_app before rest n :
  n <= length before ->
  take (trimKeyEnd (before ++ rest) n) (before ++ rest)
  = dropWhileEnd (fun c => Ascii.eqb c SP) (take n before).
Proof.
  unfold dropWhileEnd.
  induction n as [|n IH]; intros Hn; simpl.
  - reflexivity.
  - assert (exists x, before !! n = Some x) as [x Hx].
    { apply lookup_lt_is_Some_2. lia. }
    assert (byteAt (before ++ rest) n = x) as ->.
    { unfold byteAt. apply nth_lookup_Some with (d := "000").
      by rewrite lookup_app_l by lia. }
    rewrite (take_S_r before n x Hx).
    rewrite rev_app_distr. simpl.
    destruct (Ascii.eqb x SP).
    + apply IH. lia.
    + simpl. rewrite rev_involutive, <- (take_S_r before n x Hx).
      rewrite take_app_le by lia. reflexivity.
Qed.

Lemma countWhile_dropWhile p l : drop (countWhile p l) l = dropWhile p l.
Proof. induction l as [|c l IH]; simpl; [done|]. by destruct (p c). Qed.

Lemma advanceWhile_drop p val i :
  drop (advanceWhile p val i) val = dropWhile p (drop i val).
Proof.
  unfold advanceWhile. rewrite <- drop_drop.
  apply countWhile_dropWhile.
Qed.

(** The line-splitting code of ReadHeader, against the specification of a
    line. *)
Lemma readLine_parse line before after :
  cutAtColon line = Some (before, after) ->
  let i := Z.to_nat (IndexByte line COLON) in
  take (trimKeyEnd line i) line = trimTrailingSpaces before
  /\ drop (advanceWhile isSpaceOrTab line (S i)) line = skipLeadingBlanks after.
Proof.
  intros Hcut. destruct (cutAtColon_Some _ _ _ Hcut) as [-> Hi].
  rewrite Hi, Nat2Z.id. simpl. split.
  - rewrite trimKeyEnd_app by lia. by rewrite take_ge by lia.
  - rewrite advanceWhile_drop. unfold skipLeadingBlanks. f_equal.
    rewrite drop_app_ge by lia.
    by replace (S (length before) - length before) with 1 by lia.
Qed.

Lemma readLoop_spec evs m :
  readLoop (readerOf evs) m
  = (fst (readSpec evs (Headers m)),
     if reachesEnd evs then Some ErrEOF else snd (readSpec evs (Headers m))).
Proof.
  revert m. induction evs as [|[line|err] evs IH]; intros [acc]; simpl.
  - reflexivity.
  - destruct line as [|c line]; [reflexivity|].
    change (length (c :: line) =? 0) with false. cbv iota.
    unfold parseLine.
    destruct (cutAtColon (c :: line)) as [[before after]|] eqn:Hcut.
    + destruct (readLine_parse _ _ _ Hcut) as [Hkey Hval].
      destruct (cutAtColon_Some _ _ _ Hcut) as [_ Hi].
      destruct (IndexByte (c :: line) COLON <? 0)%Z eqn:E; [lia|].
      rewrite Hkey, Hval.
      destruct (trimTrailingSpaces before) as [|k ks] eqn:Hraw.
      * rewrite bool_decide_true by reflexivity. apply IH.
      * rewrite bool_decide_false
          by (intros Hn; apply (proj1 (Canonical_nil _)) in Hn; discriminate).
        rewrite IH. unfold Add. by rewrite Canonical_idem.
    + apply cutAtColon_None in Hcut.
      by destruct (IndexByte (c :: line) COLON <? 0)%Z eqn:E; [|lia].
  - reflexivity.
Qed.

(** C3 on the code: on the stream that holds the line [Foo: bar] and ends
    without a blank line, ReadHeader returns the header read together with
    the error io.EOF of the reader's last call, where the specification of
    the reader stops normally, without an error, as it does on a blank
    line.  (ReadMessage returns no message on any error of ReadHeader, and
    the package's test of ReadMessage expects this stream to be read.) *)
Theorem ReadHeader_stream_end_is_error :
  ReadHeader (readerOf [Line (str "Foo: bar")])
  = (mkHeader [mkKV (str "Foo") (str "bar")], Some ErrEOF)
  /\ readSpec [Line (str "Foo: bar")] []
     = (mkHeader [mkKV (str "Foo") (str "bar")], None)
  /\ ReadHeader (readerOf [Line (str "Foo: bar"); Line []])
     = (mkHeader [mkKV (str "Foo") (str "bar")], None).
Proof. repeat split; vm_compute; reflexivity. Qed.

(** X1.  On every sequence of logical lines ReadHeader builds the header
    that the specification of the reader describes -- a line without a
    colon stops the reading with a malformed-line error that carries the
    line, a line with an empty key is skipped, any other line appends the
    canonical key and the text after the colon and its leading spaces and
    tabs -- and returns the error it describes, but at the end of a stream
    without a blank line, where ReadHeader returns io.EOF. *)
Theorem ReadHeader_follows_spec (evs : list event) :
  ReadHeader (readerOf evs)
  = (fst (readSpec evs []),
     if reachesEnd evs then Some ErrEOF else snd (readSpec evs [])).
Proof. unfold ReadHeader. apply readLoop_spec. Qed.

(* ================================================================== *)
(** * Properties of WriteTo *)
(* ================================================================== *)

Lemma hasKey_app k l1 l2 : hasKey k (l1 ++ l2) = hasKey k l1 || hasKey k l2.
Proof. unfold hasKey. apply existsb_app. Qed.

(** [seen] holds the unique keys of the entries rendered so far. *)
Definition seenOf (seen : gset bytes) (rendered : list KV) : Prop :=
  forall k, k ∈ seen <-> isUnique k = true /\ hasKey k rendered = true.

Lemma seenOf_empty : seenOf ∅ [].
Proof. intros k. split; [set_solver | by intros [_ ?]]. Qed.

Lemma seenOf_add seen rendered e :
  seenOf seen rendered ->
  seenOf (if isUnique (Key e) then {[Key e]} ∪ seen else seen) (rendered ++ [e]).
Proof.
  intros Hs k. rewrite hasKey_app. unfold hasKey at 2. cbn [existsb].
  rewrite orb_false_r.
  destruct (isUnique (Key e)) eqn:Hu.
  - rewrite elem_of_union, elem_of_singleton, (Hs k), orb_true_iff, bool_decide_eq_true.
    split.
    + intros [->|[? ?]]; auto.
    + intros [Hk [?|?]]; [by right | by left].
  - rewrite (Hs k), orb_true_iff, bool_decide_eq_true.
    split.
    + intros [? ?]; auto.
    + intros [Hk [?|Hke]]; [done|]. congruence.
Qed.

Lemma selectSpec_sublist o rendered hs : sublist (selectSpec o rendered hs) hs.
Proof.
  revert rendered. induction hs as [|e hs IH]; intros rendered; cbn [selectSpec].
  - constructor.
  - destruct (visible o e && _).
    + apply sublist_skip, IH.
    + apply sublist_cons, IH.
Qed.

Lemma selectSpec_unique_once o k hs rendered :
  isUnique k = true ->
  length (filter (fun e => Key e = k) (selectSpec o rendered hs))
  <= (if hasKey k rendered then 0 else 1).
Proof.
  intros Hu. revert rendered.
  induction hs as [|e hs IH]; intros rendered; cbn [selectSpec].
  - rewrite filter_nil. cbn [length]. destruct (hasKey k rendered); lia.
  - destruct (visible o e && negb (isUnique (Key e) && hasKey (Key e) rendered)) eqn:Hsel.
    + rewrite filter_cons. specialize (IH (rendered ++ [e])).
      rewrite hasKey_app in IH. unfold hasKey at 2 in IH. cbn [existsb] in IH.
      rewrite orb_false_r in IH.
      destruct (decide (Key e = k)) as [Hk|Hk].
      * subst k. rewrite Hu in Hsel. cbn [andb] in Hsel.
        apply andb_true_iff in Hsel as [_ Hsel].
        apply negb_true_iff in Hsel. rewrite Hsel in *.
        rewrite bool_decide_true in IH by reflexivity.
        rewrite orb_true_r in IH. cbn [length]. lia.
      * rewrite bool_decide_false in IH by assumption.
        by rewrite orb_false_r in IH.
    + apply IH.
Qed.

Section WriteToProperties.
Context `{MailLib}.

Lemma writeLoop_spec o hs seen rendered w :
  seenOf seen rendered ->
  writeLoop o hs seen w = renderAll o (selectSpec o rendered hs) w.
Proof.
  revert seen rendered w.
  induction hs as [|e hs IH]; intros seen rendered w Hseen;
    cbn [writeLoop selectSpec renderAll]; [done|].
  unfold visible.
  destruct (negb (RenderBlank o) && bool_decide (Value e = []));
    cbn [negb andb]; [by apply IH|].
  destruct (bool_decide (Key e = HdrBcc) && negb (RenderBCC o));
    cbn [negb andb]; [by apply IH|].
  destruct (bool_decide (Key e = HdrReturnPath) && negb (RenderReturnPath o));
    cbn [negb andb]; [by apply IH|].
  pose proof (seenOf_add seen rendered e Hseen) as Hadd.
  pose proof (Hseen (Key e)) as Hin.
  unfold isUnique, typeOf in *.
  destruct (HeaderSyntax !! Key e) as [syn|] eqn:Hsyn.
  - destruct (Unique syn) eqn:Hu; cbn [negb andb].
    + assert (bool_decide (Key e ∈ seen) = hasKey (Key e) rendered) as ->.
      { destruct (hasKey (Key e) rendered).
        - apply bool_decide_eq_true, Hin. done.
        - apply bool_decide_eq_false. rewrite Hin. by intros [_ ?]. }
      destruct (hasKey (Key e) rendered); cbn [negb andb renderAll]; [by apply IH|].
      unfold typeOf. rewrite Hsyn.
      destruct (writeHeader _ _ _ _ _) as [w' [err|]]; [done | by apply IH].
    + cbn [renderAll]. unfold typeOf. rewrite Hsyn.
      destruct (writeHeader _ _ _ _ _) as [w' [err|]]; [done | by apply IH].
  - cbn [negb andb renderAll]. unfold typeOf. rewrite Hsyn.
    destruct (writeHeader _ _ _ _ _) as [w' [err|]]; [done | by apply IH].
Qed.

(** C5.  WriteTo renders, in the order of the header and up to the first
    error, the entries that the options let pass -- a blank value passes
    with RenderBlank only, Bcc with RenderBCC only, Return-Path with
    RenderReturnPath only -- except, for a key registered as unique, an
    entry met after an entry under the same key has been rendered; so at
    most one entry of a unique key is rendered, the first that passes. *)
Theorem WriteTo_renders_selected (h : Header) (w : Writer) (o : Options) :
  WriteTo h w o = renderAll o (selectSpec o [] (Headers h)) w
  /\ sublist (selectSpec o [] (Headers h)) (Headers h)
  /\ forall k, isUnique k = true ->
       length (filter (fun e => Key e = k) (selectSpec o [] (Headers h))) <= 1.
Proof.
  split; [|split].
  - apply writeLoop_spec, seenOf_empty.
  - apply selectSpec_sublist.
  - intros k Hk. apply (selectSpec_unique_once o k (Headers h) [] Hk).
Qed.

End WriteToProperties.

Lemma WriteTo_renders_selected_witness :
  length (filter (fun e => Key e = str "Subject")
            (selectSpec (mkOptions false false false false) []
               [mkKV (str "Subject") (str "a"); mkKV (str "Subject") (str "b")]))
  <= 1.
Proof.
  apply (proj2 (proj2 (WriteTo_renders_selected
           (mkHeader [mkKV (str "Subject") (str "a"); mkKV (str "Subject") (str "b")])
           [] (mkOptions false false false false)))).
  vm_compute. reflexivity.
Defined.

(* ================================================================== *)
(** * Canonical keys in a header *)
(* ================================================================== *)






Lemma toLowerByte_hyphen c :
  Ascii.eqb c HYPHEN = false -> Ascii.eqb (toLowerByte c) HYPHEN = false.
Proof. by_bytes c. Qed.









Lemma normalizeLoop_map pre todo :
  normalizeLoop (length pre) todo (pre ++ todo)
  = pre ++ map (fun e => mkKV (Key e) (normalizeValue (Value e))) todo.
Proof.
  revert pre. induction todo as [|kv todo IH]; intros pre; cbn [normalizeLoop map].
  - reflexivity.
  - rewrite alter_app_r_alt by lia. rewrite Nat.sub_diag. cbn [alter list_alter].
    specialize (IH (pre ++ [mkKV (Key kv) (normalizeValue (Value kv))])).
    rewrite length_app in IH. cbn [length] in IH.
    rewrite Nat.add_1_r in IH. rewrite <- !app_assoc in IH. apply IH.
Qed.

(** Normalize rewrites the value of every entry and nothing else. *)
Lemma Normalize_map h :
  Headers (Normalize h)
  = map (fun e => mkKV (Key e) (normalizeValue (Value e))) (Headers h).
Proof. apply (normalizeLoop_map [] (Headers h)). Qed.


Section CanonicalKeys.
Context `{MailLib}.




End CanonicalKeys.



(* ================================================================== *)
(** * Runes and pieces *)
(* ================================================================== *)

Lemma first_Multi b sz lo hi :
  first b = Multi sz lo hi ->
  (sz = 2 \/ sz = 3 \/ sz = 4) /\ (0x80 <= lo)%N /\ (hi <= 0xBF)%N.
Proof.
  unfold first.
  repeat match goal with
         | |- context [if ?c then _ else _] => destruct c
         end;
    intros Hm; try discriminate; injection Hm as <- <- <-;
    (split; [tauto | split; lia]).
Qed.

Lemma accept_cont lo hi x :
  (0x80 <= lo)%N -> (hi <= 0xBF)%N -> isCont x = false -> accept lo hi x = false.
Proof.
  unfold isCont, accept. intros Hlo Hhi.
  rewrite !andb_false_iff, !N.leb_gt. lia.
Qed.

Lemma first_cont b : isCont b = true -> first b = XX.
Proof. by_bytes b. Qed.

Lemma decodeRune_cont b r : isCont b = true -> decodeRune (b :: r) = (RuneError, 1).
Proof. intros Hb. unfold decodeRune. by rewrite (first_cont b Hb). Qed.

Lemma decodeRune_width_pos b r : 0 < snd (decodeRune (b :: r)).
Proof.
  unfold decodeRune.
  destruct (first b) as [| |[|[|[|[|[|]]]]] lo hi]; simpl; try lia;
    repeat (match goal with
            | |- context [match ?l with [] => _ | _ :: _ => _ end] => destruct l
            end; simpl; try lia);
    repeat (match goal with
            | |- context [if ?c then _ else _] => destruct c
            end; simpl; try lia).
Qed.

Lemma decodeRune_width_le s : snd (decodeRune s) <= length s.
Proof.
  destruct s as [|b r]; [simpl; lia|].
  unfold decodeRune.
  destruct (first b) as [| |[|[|[|[|[|]]]]] lo hi]; simpl; try lia;
    repeat (match goal with
            | |- context [match ?l with [] => _ | _ :: _ => _ end] => destruct l
            end; simpl; try lia);
    repeat (match goal with
            | |- context [if ?c then _ else _] => destruct c
            end; simpl; try lia).
Qed.

Lemma sim_refl t : sim t t.
Proof. induction t; [by apply sim_stop | by apply sim_cons]. Qed.

Lemma sim_app p t t' : sim t t' -> sim (p ++ t) (p ++ t').
Proof. intros Hs. induction p; simpl; [done | by apply sim_cons]. Qed.

Lemma decodeRune_sim b t t' : sim t t' -> decodeRune (b :: t) = decodeRune (b :: t').
Proof.
  intros Hs. unfold decodeRune.
  destruct (first b) as [| |sz lo hi] eqn:Hf; try reflexivity.
  destruct (first_Multi _ _ _ _ Hf) as (Hsz & Hlo & Hhi).
  pose proof (accept_cont lo hi) as Hacc.
  pose proof (accept_cont 0x80 0xBF) as Hcont.
  assert (forall x, isCont x = false -> accept lo hi x = false) as Ha by auto.
  clear Hacc Hf.
  destruct Hsz as [->|[->| ->]].
  - destruct Hs as [t t' Ht Ht'|b1 t t' _]; [|reflexivity].
    destruct t as [|b1 t], t' as [|b1' t']; simpl in *; rewrite ?Ha by assumption;
      reflexivity.
  - destruct Hs as [t t' Ht Ht'|b1 t t' Hs].
    + destruct t as [|b1 [|b2 t]], t' as [|b1' [|b2' t']]; simpl in *;
        rewrite ?Ha by assumption; reflexivity.
    + destruct Hs as [t t' Ht Ht'|b2 t t' _]; [|reflexivity].
      destruct t as [|b2 t], t' as [|b2' t']; simpl in *;
        unfold isCont in *; rewrite ?Ht, ?Ht', ?andb_false_r; reflexivity.
  - destruct Hs as [t t' Ht Ht'|b1 t t' Hs].
    + destruct t as [|b1 [|b2 [|b3 t]]], t' as [|b1' [|b2' [|b3' t']]]; simpl in *;
        rewrite ?Ha by assumption; reflexivity.
    + destruct Hs as [t t' Ht Ht'|b2 t t' Hs].
      * destruct t as [|b2 [|b3 t]], t' as [|b2' [|b3' t']]; simpl in *;
          unfold isCont in *; rewrite ?Ht, ?Ht', ?andb_false_r; reflexivity.
      * destruct Hs as [t t' Ht Ht'|b3 t t' _]; [|reflexivity].
        destruct t as [|b3 t], t' as [|b3' t']; simpl in *;
          unfold isCont in *; rewrite ?Ht, ?Ht', ?andb_false_r; reflexivity.
Qed.

Lemma concat_runes s : concat (runes s) = s.
Proof.
  funelim (runes s); [reflexivity|].
  simp runes. cbn [concat]. rewrite H. apply take_drop.
Qed.

Lemma runes_chunked s : chunked (runes s).
Proof.
  funelim (runes s); simp runes; [constructor|].
  pose proof (decodeRune_width_pos b r) as Hpos.
  pose proof (decodeRune_width_le (b :: r)) as Hle.
  constructor.
  - intros Hnil. apply (f_equal length) in Hnil.
    rewrite length_take in Hnil. cbn [length] in *. lia.
  - rewrite concat_runes, take_drop, length_take. lia.
  - exact H.
Qed.

Lemma chunked_runes cs : chunked cs -> runes (concat cs) = cs.
Proof.
  induction 1 as [|c cs Hc Hw _ IH]; [reflexivity|].
  cbn [concat]. destruct c as [|b c]; [done|].
  change ((b :: c) ++ concat cs) with (b :: (c ++ concat cs)) in *.
  simp runes. rewrite Hw.
  change (b :: (c ++ concat cs)) with ((b :: c) ++ concat cs).
  rewrite take_app_length, drop_app_length. by rewrite IH.
Qed.

Lemma chunked_tail c cs cs' :
  chunked (c :: cs) -> chunked cs' -> sim (concat cs) (concat cs') ->
  chunked (c :: cs').
Proof.
  intros Hc Hcs' Hsim. inversion Hc as [|c0 cs0 Hne Hw Hcs]; subst.
  constructor; [done| |done].
  destruct c as [|b c]; [done|].
  rewrite <- Hw. cbn [app].
  by rewrite (decodeRune_sim b _ _ (sim_app c _ _ Hsim)).
Qed.

Lemma chunked_ascii b cs : first b = AS -> chunked cs -> chunked ([b] :: cs).
Proof.
  intros Hb Hcs. constructor; [done| |done].
  cbn [app]. unfold decodeRune. by rewrite Hb.
Qed.

(** A piece that encodes a rune other than RuneError starts with a byte
    that is no continuation byte. *)
Lemma piece_stop (P : rune -> bool) c rest :
  P RuneError = false -> P (runeOf c) = true -> stopAt (c ++ rest).
Proof.
  intros HP Hc. destruct c as [|b c].
  - unfold runeOf in Hc. simpl in Hc. congruence.
  - cbn [app stopAt]. destruct (isCont b) eqn:Hb; [|done].
    unfold runeOf in Hc. rewrite decodeRune_cont in Hc by assumption.
    simpl in Hc. congruence.
Qed.

Lemma whitespaceClass_stop c rest : whitespaceClass c = true -> stopAt (c ++ rest).
Proof.
  apply (piece_stop (fun r => perlSpace r || IsZs r)). reflexivity.
Qed.

Lemma isSpacePiece_stop c rest : isSpacePiece c = true -> stopAt (c ++ rest).
Proof. apply (piece_stop IsSpace). reflexivity. Qed.

(** Replacing the runs of the class by a space leaves a list of pieces. *)
Lemma replaceRuns_chunked cs :
  chunked cs ->
  chunked (replaceRuns whitespaceClass [SP] true cs)
  /\ chunked (replaceRuns whitespaceClass [SP] false cs)
  /\ sim (concat cs) (concat (replaceRuns whitespaceClass [SP] false cs)).
Proof.
  induction 1 as [|c cs Hne Hw Hcs (IHt & IHf & IHs)]; cbn [replaceRuns].
  - repeat split; try constructor; done.
  - assert (chunked (c :: cs)) as Hc by by constructor.
    destruct (whitespaceClass c) eqn:Hcls.
    + repeat split; [done | by apply chunked_ascii |].
      apply sim_stop; [by apply whitespaceClass_stop | done].
    + repeat split; try by eapply chunked_tail.
      cbn [concat]. by apply sim_app.
Qed.

Lemma replaceRuns_collapsed cs :
  collapsed true (replaceRuns whitespaceClass [SP] true cs)
  /\ collapsed false (replaceRuns whitespaceClass [SP] false cs).
Proof.
  induction cs as [|c cs [IHt IHf]]; cbn [replaceRuns]; [done|].
  destruct (whitespaceClass c) eqn:Hcls.
  - split; [done|]. cbn [collapsed].
    change (whitespaceClass [SP]) with true. cbv iota. done.
  - cbn [collapsed]. rewrite Hcls. done.
Qed.

Lemma collapsed_replaceRuns prev cs :
  collapsed prev cs -> replaceRuns whitespaceClass [SP] prev cs = cs.
Proof.
  revert prev. induction cs as [|c cs IH]; intros prev; cbn [replaceRuns collapsed];
    [done|].
  destruct (whitespaceClass c).
  - intros (-> & -> & Hcs). by rewrite (IH true).
  - intros Hcs. by rewrite (IH false).
Qed.

Lemma collapsed_weaken prev cs : collapsed prev cs -> collapsed false cs.
Proof.
  destruct cs as [|c cs]; cbn [collapsed]; [done|].
  destruct (whitespaceClass c); [|done]. tauto.
Qed.

Lemma collapsed_dropWhile f prev cs :
  collapsed prev cs -> collapsed false (dropWhile f cs).
Proof.
  revert prev. induction cs as [|c cs IH]; intros prev Hcs; cbn [dropWhile]; [done|].
  destruct (f c); [|by eapply collapsed_weaken].
  cbn [collapsed] in Hcs. destruct (whitespaceClass c).
  - destruct Hcs as (_ & _ & Hcs). by eapply IH.
  - by eapply IH.
Qed.

Lemma collapsed_app_l prev cs ds : collapsed prev (cs ++ ds) -> collapsed prev cs.
Proof.
  revert prev. induction cs as [|c cs IH]; intros prev; cbn [app collapsed]; [done|].
  destruct (whitespaceClass c).
  - intros (? & ? & Hcs). eauto.
  - apply IH.
Qed.

(** ** dropWhile and dropWhileEnd *)

Lemma dropWhile_suffix {A} (f : A -> bool) l :
  exists p, l = p ++ dropWhile f l /\ Forall (fun x => f x = true) p.
Proof.
  induction l as [|x l (p & Hl & Hp)]; simpl.
  - by exists [].
  - destruct (f x) eqn:Hx.
    + exists (x :: p). split; [by rewrite <- app_comm_cons, <- Hl | by constructor].
    + by exists [].
Qed.

Lemma dropWhileEnd_prefix {A} (f : A -> bool) l :
  exists d, l = dropWhileEnd f l ++ d /\ Forall (fun x => f x = true) d.
Proof.
  unfold dropWhileEnd.
  destruct (dropWhile_suffix f (rev l)) as (p & Hl & Hp).
  exists (rev p). split.
  - rewrite <- rev_app_distr, <- Hl. by rewrite rev_involutive.
  - by apply Forall_rev.
Qed.

Lemma dropWhile_fixed {A} (f : A -> bool) l :
  match l with [] => True | x :: _ => f x = false end -> dropWhile f l = l.
Proof. destruct l as [|x l]; simpl; [done|]. by intros ->. Qed.

Lemma dropWhile_head {A} (f : A -> bool) l :
  match dropWhile f l with [] => True | x :: _ => f x = false end.
Proof. induction l as [|x l IH]; simpl; [done|]. by destruct (f x) eqn:Hx. Qed.

Lemma dropWhile_snoc {A} (f : A -> bool) l x :
  f x = false -> dropWhile f (l ++ [x]) = dropWhile f l ++ [x].
Proof. intros Hx. induction l as [|y l IH]; simpl; [by rewrite Hx|]. by destruct (f y). Qed.

Lemma dropWhileEnd_cons {A} (f : A -> bool) x l :
  f x = false -> dropWhileEnd f (x :: l) = x :: dropWhileEnd f l.
Proof.
  intros Hx. unfold dropWhileEnd. simpl.
  rewrite dropWhile_snoc by assumption. by rewrite rev_app_distr.
Qed.

Lemma dropWhileEnd_idem {A} (f : A -> bool) l :
  dropWhileEnd f (dropWhileEnd f l) = dropWhileEnd f l.
Proof.
  unfold dropWhileEnd. rewrite rev_involutive.
  by rewrite (dropWhile_fixed f (dropWhile f (rev l)) (dropWhile_head f (rev l))).
Qed.

(** Trimming a trimmed list changes nothing. *)
Lemma trim_idem {A} (f : A -> bool) l :
  dropWhileEnd f (dropWhile f (dropWhileEnd f (dropWhile f l)))
  = dropWhileEnd f (dropWhile f l).
Proof.
  pose proof (dropWhile_head f l) as Hh.
  destruct (dropWhile f l) as [|x l'] eqn:Hl; [reflexivity|].
  rewrite dropWhileEnd_cons by assumption.
  cbn [dropWhile]. rewrite Hh.
  rewrite dropWhileEnd_cons by assumption.
  by rewrite dropWhileEnd_idem.
Qed.

Lemma chunked_dropWhile f cs : chunked cs -> chunked (dropWhile f cs).
Proof.
  induction 1 as [|c cs Hne Hw Hcs IH]; cbn [dropWhile]; [constructor|].
  destruct (f c); [done | by constructor].
Qed.

Lemma chunked_app_l cs ds :
  chunked (cs ++ ds) -> stopAt (concat ds) ->
  chunked cs /\ sim (concat (cs ++ ds)) (concat cs).
Proof.
  intros Hc Hd. induction cs as [|c cs IH]; cbn [app] in *.
  - split; [constructor | by apply sim_stop].
  - inversion Hc as [|c0 cs0 Hne Hw Hcs]; subst.
    destruct (IH Hcs) as [IHc IHs].
    split; [by eapply chunked_tail | cbn [concat]; by apply sim_app].
Qed.

Lemma chunked_dropWhileEnd cs :
  chunked cs -> chunked (dropWhileEnd isSpacePiece cs).
Proof.
  intros Hc.
  destruct (dropWhileEnd_prefix isSpacePiece cs) as (d & Hcs & Hd).
  rewrite Hcs in Hc. apply chunked_app_l in Hc; [tauto|].
  destruct Hd as [|c d Hsp _]; [done|].
  cbn [concat]. by apply isSpacePiece_stop.
Qed.

(* ================================================================== *)
(** * Properties of Normalize *)
(* ================================================================== *)

(** The pieces of a normalized value. *)
Definition normalizedPieces (v : bytes) : list bytes :=
  dropWhileEnd isSpacePiece
    (dropWhile isSpacePiece (replaceRuns whitespaceClass [SP] false (runes v))).

Lemma normalizeValue_pieces v : normalizeValue v = concat (normalizedPieces v).
Proof.
  unfold normalizeValue, TrimSpace, whitespaceRe_ReplaceAllLiteralString.
  change (str " ") with [SP].
  rewrite chunked_runes; [reflexivity|].
  apply replaceRuns_chunked, runes_chunked.
Qed.

Lemma normalizedPieces_chunked v : chunked (normalizedPieces v).
Proof.
  apply chunked_dropWhileEnd, chunked_dropWhile, replaceRuns_chunked, runes_chunked.
Qed.

Lemma normalizedPieces_collapsed v : collapsed false (normalizedPieces v).
Proof.
  unfold normalizedPieces.
  destruct (dropWhileEnd_prefix isSpacePiece
              (dropWhile isSpacePiece
                 (replaceRuns whitespaceClass [SP] false (runes v)))) as (d & Hd & _).
  eapply collapsed_app_l. rewrite <- Hd.
  eapply collapsed_dropWhile, replaceRuns_collapsed.
Qed.

Lemma normalizeValue_idem v : normalizeValue (normalizeValue v) = normalizeValue v.
Proof.
  rewrite (normalizeValue_pieces (normalizeValue v)).
  rewrite (normalizeValue_pieces v) at 2.
  f_equal. unfold normalizedPieces at 1.
  rewrite normalizeValue_pieces.
  rewrite (chunked_runes _ (normalizedPieces_chunked v)).
  rewrite (collapsed_replaceRuns _ _ (normalizedPieces_collapsed v)).
  apply trim_idem.
Qed.

(** C10.  Normalize is idempotent: calling it twice leaves the entries
    that calling it once leaves. *)
Theorem Normalize_idempotent (h : Header) :
  Normalize (Normalize h) = Normalize h.
Proof.
  assert (forall a b, Headers a = Headers b -> a = b) as Hext.
  { intros [a] [b]. simpl. by intros ->. }
  apply Hext. rewrite !Normalize_map, map_map. cbn [Key Value].
  apply map_ext. intros e. by rewrite normalizeValue_idem.
Qed.

(* ================================================================== *)
(** * Properties of writeHeader *)
(* ================================================================== *)

Lemma foldLoop_eq val i tokenStart column inString w :
  foldLoop val i tokenStart column inString w =
  if length val <=? i then LoopDone tokenStart column w
  else
    let v := byteAt val i in
    if Ascii.eqb v DQUOTE then
      foldLoop val (S i) tokenStart column (negb inString) w
    else if inString then
      if isCRLF v then LoopError (ErrQuotedCRLF i) w
      else foldLoop val (S i) tokenStart column inString w
    else if isCRLF v then
      let tok := slice val tokenStart i in
      let i' := advanceWhile isCRLF val i in
      if 0 <? length tok then
        let w := Write w tok in
        let column := column + length tok in
        if length val <=? i' then LoopDone i' column w
        else if isSpaceOrTab (byteAt val i') then
          foldLoop val (S i') i' 0 inString (Write w [CR; LF])
        else
          foldLoop val (S i') i' 1 inString (Write w [CR; LF; TAB])
      else foldLoop val (S i') i' column inString w
    else if isFoldSpace v then
      let tok := slice val tokenStart i in
      if (78 <? column + length tok) && negb (tokenStart =? 0) then
        foldLoop val (S i) i (0 + length tok) inString (Write (Write w CRLF) tok)
      else
        foldLoop val (S i) i (column + length tok) inString (Write w tok)
    else foldLoop val (S i) tokenStart column inString w.
Proof.
  rewrite foldLoop_equation_1 at 1.
  destruct (le_lt_dec (length val) i) as [Hle|Hlt]; cbn [foldLoop_unfold_clause_1].
  - rewrite (proj2 (Nat.leb_le _ _) Hle). reflexivity.
  - rewrite (proj2 (Nat.leb_gt _ _) Hlt). reflexivity.
Qed.

(** ** Lines *)

Lemma lines_noBreak l : noBreak l -> lines l = [l].
Proof.
  induction 1 as [|c l Hc Hl IH]; [reflexivity|].
  cbn [lines]. destruct l as [|c2 l]; [reflexivity|].
  rewrite IH.
  assert (Ascii.eqb c CR && Ascii.eqb c2 LF = false) as ->; [|reflexivity].
  unfold isCRLF in Hc. apply orb_false_iff in Hc as [-> _]. reflexivity.
Qed.

Lemma lines_app_CRLF l rest :
  noBreak l -> lines (l ++ CRLF ++ rest) = l :: lines rest.
Proof.
  induction 1 as [|c l Hc Hl IH].
  - reflexivity.
  - change ((c :: l) ++ CRLF ++ rest) with (c :: (l ++ CRLF ++ rest)).
    cbn [lines]. rewrite IH.
    destruct (l ++ CRLF ++ rest) as [|c2 s] eqn:Hs.
    { by destruct l. }
    assert (Ascii.eqb c CR && Ascii.eqb c2 LF = false) as ->; [|reflexivity].
    unfold isCRLF in Hc. apply orb_false_iff in Hc as [-> _]. reflexivity.
Qed.

Lemma lines_joinLines ls : Forall noBreak ls -> lines (joinLines ls) = ls ++ [[]].
Proof.
  induction 1 as [|l ls Hl _ IH]; [reflexivity|].
  unfold joinLines in *. cbn [map concat]. rewrite <- app_assoc.
  rewrite lines_app_CRLF by assumption. by rewrite IH.
Qed.

Lemma joinLines_snoc ls l : joinLines (ls ++ [l]) = joinLines ls ++ l ++ CRLF.
Proof.
  unfold joinLines. rewrite map_app, concat_app. cbn [map concat].
  by rewrite app_nil_r.
Qed.

(** ** Slices and the scan *)

Lemma byteAt_lookup val i : i < length val -> val !! i = Some (byteAt val i).
Proof.
  intros Hi. unfold byteAt. rewrite nth_lookup.
  destruct (lookup_lt_is_Some_2 val i Hi) as [x ->]. reflexivity.
Qed.

Lemma slice_S val a i :
  a <= i -> i < length val -> slice val a (S i) = slice val a i ++ [byteAt val i].
Proof.
  intros Ha Hi. unfold slice.
  replace (S i - a) with (S (i - a)) by lia.
  apply take_S_r. rewrite lookup_drop.
  replace (a + (i - a)) with i by lia. by apply byteAt_lookup.
Qed.

Lemma slice_nil val i : slice val i i = [].
Proof. unfold slice. by rewrite Nat.sub_diag. Qed.

Lemma slice_end val a : slice val a (length val) = drop a val.
Proof. unfold slice. apply take_ge. rewrite length_drop. lia. Qed.

Lemma slice_noBreak val a b : noBreak val -> noBreak (slice val a b).
Proof. intros Hv. unfold slice. by apply Forall_take, Forall_drop. Qed.

Lemma byteAt_noBreak val i : noBreak val -> i < length val -> isCRLF (byteAt val i) = false.
Proof.
  intros Hv Hi. unfold noBreak in Hv. rewrite Forall_lookup in Hv.
  by apply (Hv i), byteAt_lookup.
Qed.

Lemma quoteScan_snoc a t s v :
  quoteScan a t = Some s ->
  quoteScan a (t ++ [v]) =
  if Ascii.eqb v DQUOTE then Some (negb s)
  else if s then Some s
  else if isFoldSpace v then None else Some s.
Proof.
  revert a. induction t as [|c t IH]; intros a; cbn [app quoteScan].
  - intros [= ->]. destruct (Ascii.eqb v DQUOTE); [done|].
    destruct s; [done|]. by destruct (isFoldSpace v).
  - destruct (Ascii.eqb c DQUOTE); [apply IH|].
    destruct a; [apply IH|].
    destruct (isFoldSpace c); [done | apply IH].
Qed.

(** ** The folding loop *)

Lemma singleToken_nil : singleToken [].
Proof. by exists false. Qed.

Lemma allFoldSpace_head pre t :
  allFoldSpace pre -> pre ≠ [] ->
  exists c l, pre ++ t = c :: l /\ isFoldSpace c = true.
Proof.
  intros Hpre Hne. destruct Hpre as [|c pre Hc _]; [done|].
  by exists c, (pre ++ t).
Qed.

(** Writing the waiting token [pre ++ t], after a fold or not, keeps the
    lines as they should be.  Without a fold the token is the first one,
    or it fits, or the line holds one white space character at most. *)
Lemma shape_flush key closed cur pre t tokenStart (fold : bool) :
  shape key closed cur ->
  allFoldSpace pre -> singleToken t ->
  (tokenStart ≠ 0 -> pre ≠ []) ->
  (tokenStart = 0 -> closed = [] /\ cur = key ++ str ": ") ->
  (fold = true -> tokenStart ≠ 0) ->
  (fold = false ->
     tokenStart = 0 \/ length cur + length (pre ++ t) <= 78 \/ length cur <= 1) ->
  shape key (if fold then closed ++ [cur] else closed)
    (if fold then pre ++ t else cur ++ pre ++ t).
Proof.
  intros Hshape Hpre Ht Hne Hzero Hfold Hkeep.
  destruct fold.
  - specialize (Hfold eq_refl). specialize (Hne Hfold).
    assert (contLineOK (pre ++ t)) as Hcont.
    { right. by exists pre, t. }
    pose proof (allFoldSpace_head pre t Hpre Hne) as Hhead.
    unfold shape in *. destruct closed as [|d ds]; cbn [app].
    + destruct Hshape as [Hfirst _]. repeat split; auto.
    + destruct Hshape as (Hd & Hds & Hcur & _). repeat split; auto.
      apply Forall_app. split; [done|]. by constructor.
  - destruct (Hkeep eq_refl) as [Hz|[Hfit|Hone]].
    + destruct (Hzero Hz) as [-> ->]. unfold shape. split.
      * right. exists pre, t. by rewrite <- !app_assoc.
      * rewrite !length_app. cbn [length str list_ascii_of_string]. lia.
    + assert (length (cur ++ pre ++ t) <= 78) as Hlen.
      { rewrite length_app. lia. }
      unfold shape in *. destruct closed as [|d ds].
      * destruct Hshape as [_ H2]. split; [by left|].
        rewrite length_app. lia.
      * destruct Hshape as (Hd & Hds & _ & c & l & -> & Hc).
        repeat split; auto; [by left|]. by exists c, (l ++ pre ++ t).
    + unfold shape in *. destruct closed as [|d ds].
      * destruct Hshape as [_ H2]. lia.
      * destruct Hshape as (Hd & Hds & _ & c & l & -> & Hc).
        destruct l as [|? ?]; [|cbn [length] in Hone; lia].
        repeat split; auto.
        -- right. exists (c :: pre), t. repeat split; auto. by constructor.
        -- by exists c, (pre ++ t).
Qed.

Lemma shape_cur_length key closed cur : shape key closed cur -> 1 <= length cur.
Proof.
  unfold shape. destruct closed as [|d ds].
  - intros [_ ?]. lia.
  - intros (_ & _ & _ & c & l & -> & _). cbn [length]. lia.
Qed.

(** One step of the loop over a byte that does not end the token. *)
Lemma foldInv_next key val w0 i tokenStart column inString inString' w :
  i < length val ->
  (forall t, quoteScan false t = Some inString ->
             quoteScan false (t ++ [byteAt val i]) = Some inString') ->
  foldInv key val w0 i tokenStart column inString w ->
  foldInv key val w0 (S i) tokenStart column inString' w.
Proof.
  intros Hi Hscan Hinv.
  destruct Hinv as [i ts col inS closed cur pre t Hts _ Hsl Hpre Hq Hne Hcur Hcl Hcol Hz Hsh].
  apply FoldInv with (pre := pre) (t := t ++ [byteAt val i]); auto; try lia.
  rewrite slice_S by lia. rewrite Hsl. by rewrite app_assoc.
Qed.

(** The step of the loop at a white space character out of quoted
    strings: the waiting token is written, after a fold if it does not
    fit. *)
Lemma foldInv_space key val w0 i tokenStart column inString w :
  noBreak val -> i < length val -> isFoldSpace (byteAt val i) = true ->
  inString = false ->
  foldInv key val w0 i tokenStart column inString w ->
  let tok := slice val tokenStart i in
  foldInv key val w0 (S i) i
    (if (78 <? column + length tok) && negb (tokenStart =? 0)
     then 0 + length tok else column + length tok) false
    (if (78 <? column + length tok) && negb (tokenStart =? 0)
     then Write (Write w CRLF) tok else Write w tok).
Proof.
  intros Hval Hi Hsp HinS Hinv tok. subst tok.
  destruct Hinv as [i ts col inS closed cur pre t Hts _ Hsl Hpre Hq Hne Hcur Hcl Hcol Hz Hsh].
  subst inS.
  set (fold := (78 <? col + length (slice val ts i)) && negb (ts =? 0)).
  assert (noBreak (pre ++ t)) as Htok.
  { rewrite <- Hsl. by apply slice_noBreak. }
  assert (shape key (if fold then closed ++ [cur] else closed)
            (if fold then pre ++ t else cur ++ pre ++ t)) as Hsh'.
  { apply (shape_flush key closed cur pre t ts fold); auto.
    - by exists false.
    - unfold fold. intros Hf. apply andb_true_iff in Hf as [_ Hf].
      apply negb_true_iff, Nat.eqb_neq in Hf. done.
    - unfold fold. intros Hf. apply andb_false_iff in Hf as [Hf|Hf].
      + right. left. apply Nat.ltb_ge in Hf. rewrite Hsl in Hf. lia.
      + left. apply negb_false_iff, Nat.eqb_eq in Hf. done. }
  assert ((if fold then Write (Write (w0 ++ joinLines closed ++ cur) CRLF) (slice val ts i)
           else Write (w0 ++ joinLines closed ++ cur) (slice val ts i))
          = w0 ++ joinLines (if fold then closed ++ [cur] else closed)
              ++ (if fold then pre ++ t else cur ++ pre ++ t)) as ->.
  { unfold Write. rewrite Hsl. destruct fold.
    - rewrite joinLines_snoc. by rewrite <- !app_assoc.
    - by rewrite <- !app_assoc. }
  apply FoldInv with (pre := [byteAt val i]) (t := []); auto; try lia.
  - rewrite slice_S by lia. by rewrite slice_nil.
  - by constructor.
  - destruct fold; [done|]. apply Forall_app. by split.
  - destruct fold; [|done]. apply Forall_app. split; [done | by constructor].
  - rewrite Hsl. destruct fold; [done|]. rewrite !length_app. lia.
  - intros ->. assert (ts = 0) as -> by lia.
    destruct (Hz eq_refl) as [-> ->].
    rewrite slice_nil in Hsl. symmetry in Hsl. apply app_eq_nil in Hsl as [-> ->].
    unfold fold. rewrite andb_false_r. by rewrite !app_nil_r.
Qed.

(** On a value without CR and LF the loop runs to the end of the value and
    keeps the lines as they should be. *)
Lemma foldLoop_inv key val w0 :
  noBreak val ->
  forall n i tokenStart column inString w,
    length val - i = n ->
    foldInv key val w0 i tokenStart column inString w ->
    exists tokenStart' column' inString' w',
      foldLoop val i tokenStart column inString w = LoopDone tokenStart' column' w'
      /\ foldInv key val w0 (length val) tokenStart' column' inString' w'.
Proof.
  intros Hval. induction n as [|n IH]; intros i ts col inS w Hn Hinv;
    rewrite foldLoop_eq.
  - assert (i = length val) as ->.
    { destruct Hinv. lia. }
    rewrite Nat.leb_refl. by exists ts, col, inS, w.
  - assert (i < length val) as Hi by lia.
    rewrite (proj2 (Nat.leb_gt _ _) Hi). cbv zeta.
    pose proof (byteAt_noBreak val i Hval Hi) as Hv. rewrite Hv.
    destruct (Ascii.eqb (byteAt val i) DQUOTE) eqn:Hq.
    { apply IH; [lia|]. eapply foldInv_next; [done| |exact Hinv].
      intros t Ht. rewrite (quoteScan_snoc _ _ _ _ Ht). by rewrite Hq. }
    destruct inS.
    { apply IH; [lia|]. eapply foldInv_next; [done| |exact Hinv].
      intros t Ht. rewrite (quoteScan_snoc _ _ _ _ Ht). by rewrite Hq. }
    destruct (isFoldSpace (byteAt val i)) eqn:Hsp.
    + pose proof (foldInv_space key val w0 i ts col false w Hval Hi Hsp eq_refl Hinv)
        as Hnext.
      cbv zeta in Hnext.
      destruct ((78 <? col + length (slice val ts i)) && negb (ts =? 0));
        (apply IH; [lia | exact Hnext]).
    + apply IH; [lia|]. eapply foldInv_next; [done| |exact Hinv].
      intros t Ht. rewrite (quoteScan_snoc _ _ _ _ Ht). by rewrite Hq, Hsp.
Qed.

Lemma shape_lines key closed cur :
  shape key closed cur ->
  exists first rest,
    closed ++ [cur] = first :: rest /\ firstLineOK key first /\ Forall contLineOK rest.
Proof.
  unfold shape. destruct closed as [|d ds].
  - intros [Hfirst _]. by exists cur, [].
  - intros (Hd & Hds & Hcur & _). exists d, (ds ++ [cur]).
    repeat split; auto. apply Forall_app. split; [done | by constructor].
Qed.

(** The end of writeHeader closes the last line. *)
Lemma flushTail_lines key val w0 tokenStart column inString w :
  noBreak val ->
  foldInv key val w0 (length val) tokenStart column inString w ->
  exists ls,
    flushTail val tokenStart column w = w0 ++ joinLines ls
    /\ Forall noBreak ls
    /\ exists first rest,
         ls = first :: rest /\ firstLineOK key first /\ Forall contLineOK rest.
Proof.
  intros Hval Hinv.
  remember (length val) as n eqn:Hn.
  destruct Hinv as [i ts col inS closed cur pre t Hts _ Hsl Hpre Hq Hne Hcur Hcl Hcol Hz Hsh].
  subst i. rewrite slice_end in Hsl.
  unfold flushTail. rewrite Hsl.
  destruct (ts <? length val) eqn:Hlt.
  - set (fold := (78 <? col + length (pre ++ t)) && negb (ts =? 0) && (1 <? col)).
    assert (noBreak (pre ++ t)) as Htok.
    { rewrite <- Hsl. by apply Forall_drop. }
    assert (shape key (if fold then closed ++ [cur] else closed)
              (if fold then pre ++ t else cur ++ pre ++ t)) as Hsh'.
    { apply (shape_flush key closed cur pre t ts fold); auto.
      - by exists inS.
      - unfold fold. intros Hf. apply andb_true_iff in Hf as [Hf _].
        apply andb_true_iff in Hf as [_ Hf].
        apply negb_true_iff, Nat.eqb_neq in Hf. done.
      - unfold fold. intros Hf. apply andb_false_iff in Hf as [Hf|Hf].
        + apply andb_false_iff in Hf as [Hf|Hf].
          * right. left. apply Nat.ltb_ge in Hf. lia.
          * left. apply negb_false_iff, Nat.eqb_eq in Hf. done.
        + right. right. apply Nat.ltb_ge in Hf. lia. }
    pose proof (shape_cur_length _ _ _ Hsh') as Hpos.
    exists ((if fold then closed ++ [cur] else closed)
            ++ [if fold then pre ++ t else cur ++ pre ++ t]).
    split; [|split].
    + rewrite joinLines_snoc. unfold Write. destruct fold.
      * cbn [Nat.add] in *.
        destruct (length (pre ++ t) =? 0) eqn:E; [apply Nat.eqb_eq in E; lia|].
        cbn [negb]. rewrite joinLines_snoc. by rewrite <- !app_assoc.
      * rewrite length_app in Hpos.
        destruct (col + length (pre ++ t) =? 0) eqn:E; [apply Nat.eqb_eq in E; lia|].
        cbn [negb]. by rewrite <- !app_assoc.
    + apply Forall_app. split.
      * destruct fold; [|done]. apply Forall_app. split; [done | by constructor].
      * constructor; [|constructor]. destruct fold; [done|].
        apply Forall_app. by split.
    + by apply shape_lines.
  - pose proof (shape_cur_length _ _ _ Hsh) as Hpos.
    exists (closed ++ [cur]). split; [|split].
    + destruct (col =? 0) eqn:E; [apply Nat.eqb_eq in E; lia|].
      cbn [negb]. rewrite joinLines_snoc. unfold Write. by rewrite <- !app_assoc.
    + apply Forall_app. split; [done | by constructor].
    + by apply shape_lines.
Qed.

Section WriteHeaderProperties.
Context `{MailLib}.

(** The folding of a value without CR and LF, after the key. *)
Lemma foldValue_lines w key v :
  noBreak key -> noBreak v ->
  exists out first rest,
    foldValue (Write (Write w key) (str ": ")) (length key + 2) v = (w ++ out, None)
    /\ lines out = first :: rest ++ [[]]
    /\ firstLineOK key first /\ Forall contLineOK rest.
Proof.
  intros Hkey Hv. unfold foldValue.
  assert (noBreak (key ++ str ": ")) as Hhead.
  { apply Forall_app. split; [done|]. by repeat constructor. }
  destruct (length v + (length key + 2) <? 78) eqn:Hshort.
  - apply Nat.ltb_lt in Hshort.
    exists (joinLines [key ++ str ": " ++ v]), (key ++ str ": " ++ v), [].
    split; [|split; [|split]].
    + unfold Write, joinLines. cbn [map concat]. by rewrite <- !app_assoc, app_nil_r.
    + apply lines_joinLines. constructor; [|constructor].
      apply Forall_app. split; [done|]. apply Forall_app. split; [|done].
      by repeat constructor.
    + left. rewrite !length_app. cbn [length str list_ascii_of_string]. lia.
    + constructor.
  - assert (foldInv key v w 0 0 (length key + 2) false
              (Write (Write w key) (str ": "))) as Hinit.
    { replace (Write (Write w key) (str ": "))
        with (w ++ joinLines [] ++ (key ++ str ": "))
        by (unfold Write, joinLines; cbn [map concat app]; by rewrite <- app_assoc).
      apply FoldInv with (pre := []) (t := []); auto; try lia.
      - constructor.
      - rewrite length_app. reflexivity.
      - split.
        + right. exists [], []. repeat split; [constructor | apply singleToken_nil].
        + rewrite length_app. cbn [length str list_ascii_of_string]. lia. }
    destruct (foldLoop_inv key v w Hv (length v - 0) 0 0 (length key + 2) false _
                eq_refl Hinit) as (ts & col & inS & w' & -> & Hend).
    destruct (flushTail_lines key v w ts col inS w' Hv Hend)
      as (ls & -> & Hls & first & rest & -> & Hfirst & Hrest).
    exists (joinLines (first :: rest)), first, rest.
    split; [done|]. split; [|done].
    by rewrite lines_joinLines.
Qed.


End WriteHeaderProperties.

(** A decidable statement on closed terms is refuted by evaluating it. *)
Ltac refute_by_eval :=
  let H := fresh in
  intros H; apply (bool_decide_pack _) in H; vm_compute in H; exact H.



(** C2 on the code: Set accepts the Subject value [a CR LF b], and the
    header is written on the simple path as it is, so that the second line
    of the output is [b], which begins with no space and no tab. *)
Theorem simple_path_keeps_line_break :
  let value := str "a" ++ CRLF ++ str "b" in
  let h := fst (Header_Set emptyHeader (str "Subject") value) in
  snd (Header_Set emptyHeader (str "Subject") value) = None
  /\ Bytes h defaultOptions
     = (Some (str "Subject: a" ++ CRLF ++ str "b" ++ CRLF), None)
  /\ lines (str "Subject: a" ++ CRLF ++ str "b" ++ CRLF)
     = [str "Subject: a"; str "b"; []]
  /\ ¬ beginsWithFold (str "b").
Proof.
  cbv zeta. split; [|split; [|split]]; try (vm_compute; reflexivity).
  refute_by_eval.
Qed.

(** C6 on the code: the validator rejects [<a@b>], which the rule of the
    specification accepts (the expression wants a dot in the domain), and
    accepts [<a@b.c>junk] and [<a..b@c.d>], which the rule rejects (the
    expression has no anchor at its end, and its atext class holds the
    dot). *)
Theorem validMessageId_differs_from_rule :
  (validMessageId (str "<a@b>") = Some (ErrMessageID (str "<a@b>"))
   /\ validMessageIdSpec (str "<a@b>") = true)
  /\ (validMessageId (str "<a@b.c>junk") = None
      /\ validMessageIdSpec (str "<a@b.c>junk") = false)
  /\ (validMessageId (str "<a..b@c.d>") = None
      /\ validMessageIdSpec (str "<a..b@c.d>") = false)
  /\ snd (Header_Set emptyHeader (str "Message-Id") (str "<a@b>"))
     = Some (ErrInvalidValue (str "Message-Id") (ErrMessageID (str "<a@b>"))).
Proof. repeat split; vm_compute; reflexivity. Qed.

(** C7 on the code: a vertical tab inside a value is left as it is, for the
    class [\s] of the expression does not hold it; the value of the
    package's test is normalized as the test expects. *)
Theorem Normalize_keeps_vertical_tab :
  Normalize (mkHeader [mkKV (str "Foo") (str "a" ++ [VT] ++ str "b")])
  = mkHeader [mkKV (str "Foo") (str "a" ++ [VT] ++ str "b")]
  /\ Normalize
       (mkHeader
          [mkKV (str "FOO")
             (str "  one" ++ [TAB] ++ str "two   three" ++ [LF] ++ str "  four"
                ++ [TAB] ++ str " five" ++ [TAB; LF] ++ str "six" ++ [CR; LF]
                ++ str "seven" ++ [LF])])
     = mkHeader [mkKV (str "FOO") (str "one two three four five six seven")].
Proof. split; vm_compute; reflexivity. Qed.

(* ================================================================== *)
(** * Lookups and updates of the header model *)
(* ================================================================== *)

Lemma key_split k hs :
  noKey k hs
  \/ exists pre e post, hs = pre ++ e :: post /\ noKey k pre /\ Key e = k.
Proof.
  induction hs as [|e hs IH].
  - left. constructor.
  - destruct (decide (Key e = k)) as [He|He].
    + right. exists [], e, hs. repeat split; [constructor | done].
    + destruct IH as [Hno|(pre & e' & post & -> & Hpre & He')].
      * left. by constructor.
      * right. exists (e :: pre), e', post. repeat split; [by constructor | done].
Qed.

Lemma getLoop_found k pre e post :
  noKey k pre -> Key e = k ->
  getLoop k (pre ++ e :: post) = Value e /\ hasLoop k (pre ++ e :: post) = true.
Proof.
  intros Hpre He. induction Hpre as [|x pre Hx _ IH]; cbn [app getLoop hasLoop].
  - by rewrite bool_decide_true.
  - by rewrite bool_decide_false by congruence.
Qed.

Lemma getLoop_absent k hs : noKey k hs -> getLoop k hs = [] /\ hasLoop k hs = false.
Proof.
  induction 1 as [|x hs Hx _ IH]; cbn [getLoop hasLoop]; [done|].
  by rewrite bool_decide_false by congruence.
Qed.

Lemma hasLoop_true k hs : hasLoop k hs = true <-> exists e, e ∈ hs /\ Key e = k.
Proof.
  destruct (key_split k hs) as [Hno|(pre & e & post & -> & Hpre & He)].
  - rewrite (proj2 (getLoop_absent k hs Hno)). split; [done|].
    intros (e & Hin & He). unfold noKey in Hno. rewrite Forall_forall in Hno.
    by destruct (Hno e Hin).
  - rewrite (proj2 (getLoop_found k pre e post Hpre He)). split; [|done].
    intros _. exists e. split; [|done]. set_solver.
Qed.

(** X2.  Get returns the value of the first entry under the canonical key
    and Has returns true when there is one; when no entry is under the
    canonical key Has returns false and Get returns the empty string. *)
Theorem Get_Has_first (h : Header) (key : bytes) :
  let canonKey := CanonicalMIMEHeaderKey key in
  (forall pre e post,
     Headers h = pre ++ e :: post -> noKey canonKey pre -> Key e = canonKey ->
     Get h key = Value e /\ Has h key = true)
  /\ (noKey canonKey (Headers h) -> Get h key = [] /\ Has h key = false).
Proof.
  intros canonKey. unfold Get, Has. fold canonKey. split.
  - intros pre e post -> Hpre He. by apply getLoop_found.
  - apply getLoop_absent.
Qed.

Lemma hasLoop_app k l1 l2 : hasLoop k (l1 ++ l2) = hasLoop k l1 || hasLoop k l2.
Proof.
  induction l1 as [|e l1 IH]; cbn [app hasLoop]; [done|].
  by case_bool_decide.
Qed.

Lemma getLoop_app k l1 l2 :
  getLoop k (l1 ++ l2) = if hasLoop k l1 then getLoop k l1 else getLoop k l2.
Proof.
  induction l1 as [|e l1 IH]; cbn [app getLoop hasLoop]; [done|].
  by case_bool_decide.
Qed.

(** X3.  After Add the header has the key; Get returns the added value
    when the header had no entry under the key, and the value it returned
    before otherwise; lookups of any other key are not changed. *)
Theorem Add_then_Get (h : Header) (key value key' : bytes) :
  Has (Add h key value) key = true
  /\ Get (Add h key value) key = (if Has h key then Get h key else value)
  /\ (CanonicalMIMEHeaderKey key' ≠ CanonicalMIMEHeaderKey key ->
      Get (Add h key value) key' = Get h key'
      /\ Has (Add h key value) key' = Has h key').
Proof.
  unfold Get, Has, Add. cbn [Headers].
  rewrite !hasLoop_app, !getLoop_app. cbn [hasLoop getLoop Key Value].
  rewrite bool_decide_true by reflexivity.
  split; [by rewrite orb_true_r|]. split; [done|].
  intros Hne. rewrite bool_decide_false by assumption.
  rewrite orb_false_r. split; [|done].
  destruct (hasLoop _ (Headers h)) eqn:Hhas; [done|].
  symmetry. apply getLoop_absent.
  destruct (key_split (CanonicalMIMEHeaderKey key') (Headers h))
    as [Hno|(pre & e & post & Hh & Hpre & He)]; [done|].
  rewrite Hh in Hhas. by rewrite (proj2 (getLoop_found _ pre e post Hpre He)) in Hhas.
Qed.

Lemma hasLoop_false k hs : hasLoop k hs = false -> noKey k hs.
Proof.
  intros Hhas. destruct (key_split k hs) as [Hno|(pre & e & post & Hh & Hpre & He)];
    [done|].
  rewrite Hh in Hhas. by rewrite (proj2 (getLoop_found _ pre e post Hpre He)) in Hhas.
Qed.

Section SetLookups.
Context `{MailLib}.

(** A call of Set without an error has replaced the first entry under the
    canonical key or, when there was none, appended one. *)
Lemma Set_ok_cases h key value h' :
  Header_Set h key value = (h', None) ->
  let canonKey := CanonicalMIMEHeaderKey key in
  (exists pre old post,
     Headers h = pre ++ mkKV canonKey old :: post /\ noKey canonKey pre
     /\ Headers h' = pre ++ mkKV canonKey value :: post)
  \/ (noKey canonKey (Headers h) /\ Headers h' = Headers h ++ [mkKV canonKey value]).
Proof.
  intros Hset canonKey. unfold Header_Set in Hset. fold canonKey in Hset.
  destruct (HeaderSyntax !! canonKey) as [syn|]; [|done].
  destruct (if bool_decide (value ≠ []) then _ else _); [done|].
  destruct (key_split canonKey (Headers h)) as [Hno|(pre & e & post & Hh & Hpre & He)].
  - right. rewrite setLoop_absent in Hset by assumption.
    injection Hset as <-. done.
  - left. destruct e as [k old]. cbn [Key] in He. subst k.
    exists pre, old, post. repeat split; try done.
    rewrite Hh in Hset at 1. rewrite setLoop_found in Hset by assumption.
    injection Hset as <-. cbn [Headers]. rewrite Hh.
    rewrite insert_app_r_alt by lia.
    by rewrite Nat.sub_diag.
Qed.

(** X4.  When Set returns no error, Get of the same key returns the value
    just set and Has returns true; the header has one entry more when it
    had none under the key and as many entries as before otherwise; and
    the lookups of every other key are what they were. *)
Theorem Set_then_Get (h h' : Header) (key value key' : bytes) :
  Header_Set h key value = (h', None) ->
  Get h' key = value /\ Has h' key = true
  /\ length (Headers h') = length (Headers h) + (if Has h key then 0 else 1)
  /\ (CanonicalMIMEHeaderKey key' ≠ CanonicalMIMEHeaderKey key ->
      Get h' key' = Get h key' /\ Has h' key' = Has h key').
Proof.
  intros Hset. unfold Get, Has.
  destruct (Set_ok_cases _ _ _ _ Hset) as
    [(pre & old & post & Hh & Hpre & Hh')|[Hno Hh']]; rewrite Hh'.
  - rewrite Hh.
    destruct (getLoop_found _ pre (mkKV (CanonicalMIMEHeaderKey key) value) post
                Hpre eq_refl) as [-> ->].
    destruct (getLoop_found _ pre (mkKV (CanonicalMIMEHeaderKey key) old) post
                Hpre eq_refl) as [_ ->].
    repeat split; try done.
    + rewrite !length_app. cbn [length]. lia.
    + rewrite !getLoop_app. cbn [getLoop Key].
      by rewrite !bool_decide_false by assumption.
    + rewrite !hasLoop_app. cbn [hasLoop Key].
      by rewrite !bool_decide_false by assumption.
  - destruct (getLoop_absent _ _ Hno) as [_ ->].
    rewrite !hasLoop_app, !getLoop_app. cbn [hasLoop getLoop Key Value].
    rewrite (proj2 (getLoop_absent _ _ Hno)).
    rewrite bool_decide_true by reflexivity.
    repeat split; try done.
    + rewrite length_app. reflexivity.
    + rewrite bool_decide_false by assumption.
      destruct (hasLoop _ (Headers h)) eqn:Hhas; [done|].
      symmetry. by apply getLoop_absent, hasLoop_false.
    + rewrite bool_decide_false by assumption. by rewrite orb_false_r.
Qed.

End SetLookups.

Lemma Set_then_Get_witness :
  Get (fst (Header_Set (mkHeader [mkKV (str "To") (str "a@b")])
              (str "subject") (str "hello"))) (str "SUBJECT")
  = str "hello".
Proof.
  apply (Set_then_Get (mkHeader [mkKV (str "To") (str "a@b")]) _
           (str "subject") (str "hello") (str "to")).
  vm_compute. reflexivity.
Defined.

Lemma Get_Has_first_witness :
  Get (mkHeader [mkKV (str "A") (str "1"); mkKV (str "B") (str "2");
                 mkKV (str "B") (str "3")]) (str "b") = str "2".
Proof.
  apply (proj1 (Get_Has_first
           (mkHeader [mkKV (str "A") (str "1"); mkKV (str "B") (str "2");
                      mkKV (str "B") (str "3")]) (str "b"))
           [mkKV (str "A") (str "1")] (mkKV (str "B") (str "2"))
           [mkKV (str "B") (str "3")]).
  - reflexivity.
  - repeat constructor. vm_compute. discriminate.
  - vm_compute. reflexivity.
Defined.

Lemma Add_then_Get_witness :
  Get (Add (mkHeader [mkKV (str "A") (str "1")]) (str "b") (str "2")) (str "a")
  = str "1".
Proof.
  apply (proj2 (proj2 (Add_then_Get (mkHeader [mkKV (str "A") (str "1")])
                         (str "b") (str "2") (str "a")))).
  vm_compute. discriminate.
Defined.

Lemma removeLoop_filter key hs filtered :
  removeLoop key hs filtered = filtered ++ filter (fun e => Key e ≠ key) hs.
Proof.
  revert filtered. induction hs as [|e hs IH]; intros filtered; cbn [removeLoop].
  - by rewrite filter_nil, app_nil_r.
  - rewrite filter_cons. destruct (decide (Key e ≠ key)) as [He|He].
    + rewrite bool_decide_true by assumption. rewrite IH. by rewrite <- app_assoc.
    + rewrite bool_decide_false by assumption. apply IH.
Qed.

(** X5.  RemoveAll keeps, in their order, exactly the entries whose key is
    not the canonical key; after it Has returns false and Get returns the
    empty string for that key, and the lookups of every other key are what
    they were. *)
Theorem RemoveAll_filter (h : Header) (key key' : bytes) :
  Headers (RemoveAll h key)
  = filter (fun e => Key e ≠ CanonicalMIMEHeaderKey key) (Headers h)
  /\ Has (RemoveAll h key) key = false
  /\ Get (RemoveAll h key) key = []
  /\ (CanonicalMIMEHeaderKey key' ≠ CanonicalMIMEHeaderKey key ->
      Get (RemoveAll h key) key' = Get h key'
      /\ Has (RemoveAll h key) key' = Has h key').
Proof.
  unfold RemoveAll, Get, Has. cbn [Headers]. rewrite removeLoop_filter. cbn [app].
  set (k := CanonicalMIMEHeaderKey key).
  assert (noKey k (filter (fun e => Key e ≠ k) (Headers h))) as Hno.
  { unfold noKey. rewrite Forall_forall. intros e He.
    by apply list_elem_of_filter in He as [? _]. }
  destruct (getLoop_absent k _ Hno) as [-> ->].
  clear Hno. repeat split; try done.
  - induction (Headers h) as [|e hs IH]; [done|].
    rewrite filter_cons. destruct (decide (Key e ≠ k)) as [He|He]; cbn [getLoop].
    + case_bool_decide; [done | apply IH].
    + apply dec_stable in He. rewrite bool_decide_false by congruence. apply IH.
  - induction (Headers h) as [|e hs IH]; [done|].
    rewrite filter_cons. destruct (decide (Key e ≠ k)) as [He|He]; cbn [hasLoop].
    + case_bool_decide; [done | apply IH].
    + apply dec_stable in He. rewrite bool_decide_false by congruence. apply IH.
Qed.

Lemma RemoveAll_filter_witness :
  Get (RemoveAll (mkHeader [mkKV (str "A") (str "1"); mkKV (str "B") (str "2")])
         (str "a")) (str "b") = str "2".
Proof.
  apply (proj2 (proj2 (proj2 (RemoveAll_filter
           (mkHeader [mkKV (str "A") (str "1"); mkKV (str "B") (str "2")])
           (str "a") (str "b"))))).
  vm_compute. discriminate.
Defined.

(** X6.  Normalize leaves the keys of the entries, their order and their
    number as they are: only values change, and Has answers as before. *)
Theorem Normalize_keeps_keys (h : Header) (key : bytes) :
  map Key (Headers (Normalize h)) = map Key (Headers h)
  /\ length (Headers (Normalize h)) = length (Headers h)
  /\ Has (Normalize h) key = Has h key.
Proof.
  rewrite Normalize_map. split; [|split].
  - rewrite map_map. apply map_ext. by intros [k v].
  - by rewrite length_map.
  - unfold Has. rewrite Normalize_map.
    induction (Headers h) as [|e hs IH]; [done|].
    cbn [map hasLoop Key]. by rewrite IH.
Qed.

Lemma canonByte_lower u c : canonByte u (toLowerByte c) = canonByte u c.
Proof. destruct u; by_bytes c. Qed.

Lemma canonLoop_lower u k : canonLoop u (map toLowerByte k) = canonLoop u k.
Proof.
  revert u. induction k as [|c k IH]; intros u; cbn [map canonLoop]; [done|].
  by rewrite canonByte_lower, IH.
Qed.

(** X7.  Lookups ignore the case of a key of token bytes: two such keys
    that differ in the case of their letters only have the same canonical
    key, and Get and Has answer the same for both. *)
Theorem lookups_ignore_case (h : Header) (key key' : bytes) :
  tokenKey key -> tokenKey key' ->
  map toLowerByte key = map toLowerByte key' ->
  CanonicalMIMEHeaderKey key = CanonicalMIMEHeaderKey key'
  /\ Get h key = Get h key' /\ Has h key = Has h key'.
Proof.
  intros Hk Hk' Hlow.
  assert (CanonicalMIMEHeaderKey key = CanonicalMIMEHeaderKey key') as Heq.
  { rewrite !Canonical_valid by assumption.
    rewrite <- (canonLoop_lower true key), <- (canonLoop_lower true key').
    by rewrite Hlow. }
  unfold Get, Has. by rewrite Heq.
Qed.

Lemma lookups_ignore_case_witness :
  Get (mkHeader [mkKV (str "Content-Type") (str "text/plain")]) (str "content-type")
  = Get (mkHeader [mkKV (str "Content-Type") (str "text/plain")]) (str "CONTENT-TYPE").
Proof.
  apply (lookups_ignore_case
           (mkHeader [mkKV (str "Content-Type") (str "text/plain")])
           (str "content-type") (str "CONTENT-TYPE")).
  - vm_compute. repeat constructor.
  - vm_compute. repeat constructor.
  - vm_compute. reflexivity.
Defined.

(* ================================================================== *)
(** * More on ReadHeader, and ReadMessage *)
(* ================================================================== *)

Lemma readLoopRest_fst r m : fst (readLoopRest r m) = readLoop r m.
Proof.
  revert m. induction r as [|[kv err] r IH]; intros m; cbn [readLoopRest readLoop];
    [done|].
  destruct (length kv =? 0); [done|].
  destruct (IndexByte kv COLON <? 0)%Z; [done|].
  case_bool_decide; [apply IH|].
  destruct err; [done | apply IH].
Qed.

(** A reading that ends without an error has stopped at a blank line, and
    what follows the blank line is left in the reader. *)
Lemma readLoopRest_ok evs m hdr tp :
  readLoopRest (readerOf evs) m = ((hdr, None), tp) ->
  exists before rest,
    evs = before ++ Line [] :: rest /\ tp = readerOf rest
    /\ hdr = fst (readLoop (readerOf before) m).
Proof.
  revert m. induction evs as [|[line|err] evs IH]; intros m;
    cbn [readerOf map readLoopRest]; [done| |done].
  destruct line as [|c line].
  - cbn [length Nat.eqb]. intros [= <- <-]. by exists [], evs.
  - change (length (c :: line) =? 0) with false. cbv iota.
    destruct (IndexByte (c :: line) COLON <? 0)%Z eqn:Hidx; [done|].
    destruct (bool_decide (CanonicalMIMEHeaderKey
                (take (trimKeyEnd (c :: line) (Z.to_nat (IndexByte (c :: line) COLON)))
                   (c :: line)) = [])) eqn:Hkey;
      intros Hread; destruct (IH _ Hread) as (before & rest & -> & -> & ->);
      exists (Line (c :: line) :: before), rest; (repeat split; try done);
      cbn [readerOf map readLoop];
      change (length (c :: line) =? 0) with false; cbv iota;
      by rewrite Hidx, Hkey.
Qed.

(** X8.  ReadMessage returns a message only for a header that a blank
    line ends: the body is then what follows that line and the header is
    the one read from the lines before it.  For a stream that ends without
    a blank line it returns no message and the error io.EOF. *)
Theorem ReadMessage_needs_blank_line (evs : list event) :
  (reachesEnd evs = true -> ReadMessage (readerOf evs) = (None, Some ErrEOF))
  /\ (forall msg,
        ReadMessage (readerOf evs) = (Some msg, None) ->
        exists before rest,
          evs = before ++ Line [] :: rest
          /\ Body msg = readerOf rest
          /\ MsgHeader msg = fst (ReadHeader (readerOf before))).
Proof.
  unfold ReadMessage. split.
  - intros Hend.
    pose proof (readLoopRest_fst (readerOf evs) (mkHeader [])) as Hfst.
    rewrite readLoop_spec, Hend in Hfst.
    destruct (readLoopRest (readerOf evs) (mkHeader [])) as [[hdr err] tp].
    cbn [fst] in Hfst. by injection Hfst as _ ->.
  - intros msg Hmsg.
    destruct (readLoopRest (readerOf evs) (mkHeader [])) as [[hdr [err|]] tp] eqn:Hread;
      [done|].
    injection Hmsg as <-.
    destruct (readLoopRest_ok _ _ _ _ Hread) as (before & rest & -> & -> & ->).
    by exists before, rest.
Qed.

Lemma ReadMessage_needs_blank_line_witness :
  ReadMessage (readerOf [Line (str "Foo: bar")]) = (None, Some ErrEOF).
Proof.
  apply (proj1 (ReadMessage_needs_blank_line [Line (str "Foo: bar")])).
  vm_compute. reflexivity.
Defined.

Lemma readLoop_entries r m :
  Forall (fun e => Key e ≠ [] /\ noLeadingBlank (Value e)) (Headers m) ->
  Forall (fun e => Key e ≠ [] /\ noLeadingBlank (Value e))
    (Headers (fst (readLoop r m))).
Proof.
  revert m. induction r as [|[kv err] r IH]; intros m Hm; cbn [readLoop]; [done|].
  destruct (length kv =? 0); [done|].
  destruct (IndexByte kv COLON <? 0)%Z; [done|].
  case_bool_decide as Hkey; [by apply IH|].
  match goal with |- context [Add m ?k ?v] =>
    assert (Forall (fun e => Key e ≠ [] /\ noLeadingBlank (Value e))
              (Headers (Add m k v))) as Hadd
  end.
  { apply Forall_app. split; [done|]. constructor; [|constructor].
    cbn [Key Value]. split.
    - by rewrite Canonical_idem.
    - rewrite advanceWhile_drop. apply (dropWhile_head isSpaceOrTab). }
  destruct err; [done | by apply IH].
Qed.

(** X9.  Every entry that ReadHeader returns has a key that is not empty
    and a value that does not begin with a space or a tab, whatever the
    reader brings. *)
Theorem ReadHeader_entries (r : Reader) :
  Forall (fun e => Key e ≠ [] /\ noLeadingBlank (Value e))
    (Headers (fst (ReadHeader r))).
Proof. apply readLoop_entries. constructor. Qed.

Lemma readLoop_stops r1 err r2 m :
  readLoop (r1 ++ ([], err) :: r2) m = readLoop (r1 ++ [([], err)]) m.
Proof.
  revert m. induction r1 as [|[kv e] r1 IH]; intros m; cbn [app readLoop]; [done|].
  destruct (length kv =? 0); [done|].
  destruct (IndexByte kv COLON <? 0)%Z; [done|].
  case_bool_decide; [apply IH|].
  destruct e; [done | apply IH].
Qed.

(** X10.  ReadHeader reads nothing after a call of the reader that
    returns no line (the blank line that ends the header, or an error):
    what the reader would bring later changes neither the header nor the
    error returned. *)
Theorem ReadHeader_stops_at_blank_line (r1 r2 : Reader) (err : option error) :
  ReadHeader (r1 ++ ([], err) :: r2) = ReadHeader (r1 ++ [([], err)]).
Proof. apply readLoop_stops. Qed.

(* ================================================================== *)
(** * More on writeHeader and WriteTo *)
(* ================================================================== *)








Section WriterFrames.
Context `{MailLib}.








Lemma writeLoop_error_key o hs seen w err :
  snd (writeLoop o hs seen w) = Some err ->
  exists e w1 cause,
    e ∈ hs /\ err = ErrField (Key e) cause
    /\ snd (writeHeader w1 (typeOf (Key e)) (Key e) (Value e) o) = Some cause.
Proof.
  revert seen w. induction hs as [|e hs IH]; intros seen w; cbn [writeLoop]; [done|].
  assert (forall seen' w',
            snd (writeLoop o hs seen' w') = Some err ->
            exists e0 w1 cause,
              e0 ∈ e :: hs /\ err = ErrField (Key e0) cause
              /\ snd (writeHeader w1 (typeOf (Key e0)) (Key e0) (Value e0) o)
                 = Some cause) as Hrec.
  { intros seen' w' Hloop. destruct (IH _ _ Hloop) as (e0 & w1 & cause & Hin & -> & Hc).
    exists e0, w1, cause. split; [by apply list_elem_of_further | split; assumption || reflexivity]. }
  repeat match goal with
         | |- context [if ?c then _ else _] => destruct c
         end; try apply Hrec.
  unfold typeOf in *.
  destruct (HeaderSyntax !! Key e) as [syn|] eqn:Hsyn.
  - destruct (Unique syn && bool_decide (Key e ∈ seen)); [apply Hrec|].
    destruct (writeHeader w (Type_ syn) (Key e) (Value e) o) as [w1 [cause|]] eqn:Hw;
      [|apply Hrec].
    intros [= <-]. exists e, w, cause. rewrite Hsyn, Hw.
    split; [apply elem_of_cons; by left | split; reflexivity].
  - destruct (writeHeader w HeaderTypeOpaque (Key e) (Value e) o) as [w1 [cause|]] eqn:Hw;
      [|apply Hrec].
    intros [= <-]. exists e, w, cause. rewrite Hsyn, Hw.
    split; [apply elem_of_cons; by left | split; reflexivity].
Qed.

(** X14.  An error of WriteTo names the key of an entry of the header and
    wraps the error that writeHeader returned for that entry. *)
Theorem WriteTo_error_names_key (h : Header) (w : Writer) (o : Options) (err : error) :
  snd (WriteTo h w o) = Some err ->
  exists e w1 cause,
    e ∈ Headers h /\ err = ErrField (Key e) cause
    /\ snd (writeHeader w1 (typeOf (Key e)) (Key e) (Value e) o) = Some cause.
Proof. apply writeLoop_error_key. Qed.

Lemma writeLoop_hidden o hs seen w (hide : KV -> bool) :
  (forall e, hide e = true -> visible o e = false) ->
  writeLoop o (filter (fun e => hide e = false) hs) seen w = writeLoop o hs seen w.
Proof.
  intros Hhide. revert seen w. induction hs as [|e hs IH]; intros seen w; [done|].
  rewrite filter_cons. destruct (decide (hide e = false)) as [He|He].
  - cbn [writeLoop].
    repeat match goal with
           | |- context [if ?c then _ else _] => destruct c
           end; try apply IH.
    destruct (HeaderSyntax !! Key e) as [syn|].
    + destruct (Unique syn && bool_decide (Key e ∈ seen)); [apply IH|].
      destruct (writeHeader _ _ _ _ _) as [w1 [err|]]; [done | apply IH].
    + destruct (writeHeader _ _ _ _ _) as [w1 [err|]]; [done | apply IH].
  - apply not_false_is_true in He. specialize (Hhide e He).
    rewrite IH. cbn [writeLoop]. unfold visible in Hhide.
    destruct (negb (RenderBlank o) && bool_decide (Value e = [])); [done|].
    destruct (bool_decide (Key e = HdrBcc) && negb (RenderBCC o)); [done|].
    destruct (bool_decide (Key e = HdrReturnPath) && negb (RenderReturnPath o));
      [done | discriminate].
Qed.

(** X15.  With RenderBCC off, WriteTo writes a header as it writes the
    header with all Bcc entries removed; with RenderReturnPath off, the
    same holds for the Return-Path entries. *)
Theorem WriteTo_hides_like_RemoveAll (h : Header) (w : Writer) (o : Options) :
  (RenderBCC o = false -> WriteTo (RemoveAll h HdrBcc) w o = WriteTo h w o)
  /\ (RenderReturnPath o = false ->
      WriteTo (RemoveAll h HdrReturnPath) w o = WriteTo h w o).
Proof.
  unfold WriteTo, RemoveAll. cbn [Headers]. rewrite !removeLoop_filter. cbn [app].
  change (CanonicalMIMEHeaderKey HdrBcc) with HdrBcc.
  change (CanonicalMIMEHeaderKey HdrReturnPath) with HdrReturnPath.
  split; intros Hoff.
  - rewrite <- (writeLoop_hidden o (Headers h) ∅ w
                  (fun e => bool_decide (Key e = HdrBcc))).
    + f_equal. apply list_filter_iff. intros e.
      rewrite bool_decide_eq_false. done.
    + intros e He. unfold visible. rewrite He, Hoff. cbn [negb andb].
      by rewrite andb_false_r.
  - rewrite <- (writeLoop_hidden o (Headers h) ∅ w
                  (fun e => bool_decide (Key e = HdrReturnPath))).
    + f_equal. apply list_filter_iff. intros e.
      rewrite bool_decide_eq_false. done.
    + intros e He. unfold visible. rewrite He, Hoff. cbn [negb andb].
      by rewrite andb_false_r.
Qed.

End WriterFrames.



Lemma WriteTo_error_names_key_witness :
  exists e w1 cause,
    e ∈ [mkKV HdrSubject brokenQuote]
    /\ ErrField HdrSubject (ErrQuotedCRLF 81) = ErrField (Key e) cause
    /\ snd (writeHeader w1 (typeOf (Key e)) (Key e) (Value e) defaultOptions)
       = Some cause.
Proof.
  apply (WriteTo_error_names_key (mkHeader [mkKV HdrSubject brokenQuote]) []
           defaultOptions (ErrField HdrSubject (ErrQuotedCRLF 81))).
  vm_compute. reflexivity.
Defined.

Lemma WriteTo_hides_like_RemoveAll_witness :
  WriteTo
    (RemoveAll (mkHeader [mkKV HdrBcc (str "a@b"); mkKV HdrSubject (str "hi")]) HdrBcc)
    [] defaultOptions
  = WriteTo (mkHeader [mkKV HdrBcc (str "a@b"); mkKV HdrSubject (str "hi")])
      [] defaultOptions.
Proof.
  apply (proj1 (WriteTo_hides_like_RemoveAll
           (mkHeader [mkKV HdrBcc (str "a@b"); mkKV HdrSubject (str "hi")])
           [] defaultOptions)).
  reflexivity.
Defined.

(* ================================================================== *)
(** * Properties of the validator *)
(* ================================================================== *)

Lemma matches_nil_nullable r : matches r [] -> nullable r = true.
Proof.
  intros Hm. remember [] as s eqn:Hs.
  induction Hm as [|f c Hf|r1 r2 s1 s2 H1 IH1 H2 IH2|r1 r2 s H1 IH1
                   |r1 r2 s H2 IH2|r|r s1 s2 H1 IH1 H2 IH2];
    cbn [nullable]; try done.
  - apply app_eq_nil in Hs as [-> ->]. by rewrite IH1, IH2.
  - by rewrite IH1.
  - rewrite IH2 by done. by rewrite orb_true_r.
Qed.

Lemma nullable_matches r : nullable r = true -> matches r [].
Proof.
  induction r as [| |f|r1 IH1 r2 IH2|r1 IH1 r2 IH2|r IH]; cbn [nullable]; intros Hn;
    try done.
  - constructor.
  - apply andb_true_iff in Hn as [Hn1 Hn2].
    change (matches (Cat r1 r2) ([] ++ [])). constructor; auto.
  - apply orb_true_iff in Hn as [Hn|Hn]; [apply MAltL | apply MAltR]; auto.
  - constructor.
Qed.

(** A nonempty string matched by a starred expression starts with a
    nonempty string matched by the expression. *)
Lemma matches_star_cons r c s :
  matches (Star r) (c :: s) ->
  exists s1 s2, s = s1 ++ s2 /\ matches r (c :: s1) /\ matches (Star r) s2.
Proof.
  intros Hm. remember (Star r) as r' eqn:Hr. remember (c :: s) as s' eqn:Hs.
  induction Hm as [|f c' Hf|r1 r2 s1 s2 H1 IH1 H2 IH2|r1 r2 s0 H1 IH1
                   |r1 r2 s0 H2 IH2|r0|r0 s1 s2 H1 IH1 H2 IH2];
    try discriminate.
  injection Hr as ->.
  destruct s1 as [|c1 s1].
  - cbn [app] in Hs. by apply IH2.
  - cbn [app] in Hs. injection Hs as -> <-. by exists s1, s2.
Qed.

(** The derivative by [c] matches what is left of the strings that start
    with [c]. *)
Lemma deriv_matches r c s : matches (deriv c r) s <-> matches r (c :: s).
Proof.
  revert s. induction r as [| |f|r1 IH1 r2 IH2|r1 IH1 r2 IH2|r IH]; intros s;
    cbn [deriv].
  - split; inversion 1.
  - split; inversion 1.
  - destruct (f c) eqn:Hf; split; intros Hm.
    + inversion Hm; subst. by constructor.
    + inversion Hm; subst. constructor.
    + inversion Hm.
    + inversion Hm; subst. congruence.
  - assert (matches (Cat (deriv c r1) r2) s -> matches (Cat r1 r2) (c :: s)) as Hl.
    { intros Hm. inversion Hm as [| |r1' r2' s1 s2 H1 H2| | | |]; subst.
      change (matches (Cat r1 r2) ((c :: s1) ++ s2)).
      constructor; [by apply IH1 | done]. }
    assert (nullable r1 = false ->
            matches (Cat r1 r2) (c :: s) -> matches (Cat (deriv c r1) r2) s) as Hr.
    { intros Hn Hm. inversion Hm as [| |r1' r2' s1 s2 H1 H2 Hr1 Hs| | | |]; subst.
      destruct s1 as [|c1 s1].
      - apply matches_nil_nullable in H1. congruence.
      - cbn [app] in Hs. injection Hs as -> <-.
        constructor; [by apply IH1 | done]. }
    destruct (nullable r1) eqn:Hn; [|split; auto].
    split; intros Hm.
    + inversion Hm; subst; [by apply Hl|].
      change (matches (Cat r1 r2) ([] ++ c :: s)).
      constructor; [by apply nullable_matches | by apply IH2].
    + inversion Hm as [| |r1' r2' s1 s2 H1 H2 Hr1 Hs| | | |]; subst.
      destruct s1 as [|c1 s1].
      * cbn [app] in Hs. subst. apply MAltR. by apply IH2.
      * cbn [app] in Hs. injection Hs as -> <-.
        apply MAltL. constructor; [by apply IH1 | done].
  - split; intros Hm; inversion Hm; subst;
      (apply MAltL; by apply IH1) || (apply MAltR; by apply IH2).
  - split; intros Hm.
    + inversion Hm as [| |r1' r2' s1 s2 H1 H2| | | |]; subst.
      change (matches (Star r) ((c :: s1) ++ s2)).
      constructor; [by apply IH | done].
    + apply matches_star_cons in Hm as (s1 & s2 & -> & H1 & H2).
      constructor; [by apply IH | done].
Qed.

(** The matcher accepts the strings of which a prefix is matched by the
    expression. *)
Lemma matchPrefix_matches r s :
  matchPrefix r s = true <-> exists p q, s = p ++ q /\ matches r p.
Proof.
  revert r. induction s as [|c s IH]; intros r; cbn [matchPrefix].
  - rewrite orb_false_r. split.
    + intros Hn. exists [], []. split; [done | by apply nullable_matches].
    + intros (p & q & Hs & Hm). symmetry in Hs.
      apply app_eq_nil in Hs as [-> ->]. by apply matches_nil_nullable.
  - rewrite orb_true_iff, IH. split.
    + intros [Hn | (p & q & -> & Hm)].
      * exists [], (c :: s). split; [done | by apply nullable_matches].
      * exists (c :: p), q. split; [done | by apply deriv_matches].
    + intros (p & q & Hs & Hm). destruct p as [|c' p].
      * left. by apply matches_nil_nullable.
      * cbn [app] in Hs. injection Hs as <- ->.
        right. exists p, q. split; [done | by apply deriv_matches].
Qed.

Lemma matchPrefix_app r s t : matchPrefix r s = true -> matchPrefix r (s ++ t) = true.
Proof.
  revert r. induction s as [|c s IH]; intros r; cbn [matchPrefix app].
  - rewrite orb_false_r. intros Hn. destruct t; cbn [matchPrefix]; by rewrite Hn.
  - destruct (nullable r); [done|]. cbn [orb]. apply IH.
Qed.

(** X16.  validMessageId accepts a string exactly when some prefix of it
    is in the language of messageIdRe: the expression is anchored at the
    start only. *)
Theorem validMessageId_accepts (s : bytes) :
  validMessageId s = None <-> exists p q, s = p ++ q /\ matches messageIdRe p.
Proof.
  unfold validMessageId. rewrite <- matchPrefix_matches.
  destruct (matchPrefix messageIdRe s); split; (done || discriminate).
Qed.

(** X17.  What validMessageId accepts it accepts with anything added at
    its end. *)
Theorem validMessageId_ignores_tail (s t : bytes) :
  validMessageId s = None -> validMessageId (s ++ t) = None.
Proof.
  unfold validMessageId.
  destruct (matchPrefix messageIdRe s) eqn:Hs; [|discriminate].
  by rewrite (matchPrefix_app _ _ t Hs).
Qed.

Lemma validMessageId_ignores_tail_witness :
  validMessageId (str "<a@b.c>") = None
  /\ validMessageId (str "<a@b.c>" ++ str " and more") = None.
Proof.
  split; [reflexivity|].
  apply (validMessageId_ignores_tail (str "<a@b.c>") (str " and more")).
  reflexivity.
Defined.

Lemma Split_app sep a b :
  Split sep (a ++ sep :: b) = Split sep a ++ Split sep b
  /\ Split sep a <> [].
Proof.
  induction a as [|c a [IH1 IH2]]; cbn [app Split].
  - rewrite Ascii.eqb_refl. done.
  - destruct (Ascii.eqb c sep); [by rewrite IH1|].
    rewrite IH1. destruct (Split sep a) as [|p ps]; done.
Qed.

Lemma validMessageIdLoop_app l1 l2 :
  validMessageIdLoop (l1 ++ l2)
  = match validMessageIdLoop l1 with
    | Some err => Some err
    | None => validMessageIdLoop l2
    end.
Proof.
  induction l1 as [|id l1 IH]; cbn [app validMessageIdLoop]; [done|].
  by destruct (validMessageId id).
Qed.

(** X18.  validMessageIdList checks the parts between the commas from
    left to right: the error of a list is the error of its first part
    that has one. *)
Theorem validMessageIdList_comma (a b : bytes) :
  validMessageIdList (a ++ COMMA :: b)
  = match validMessageIdList a with
    | Some err => Some err
    | None => validMessageIdList b
    end.
Proof.
  unfold validMessageIdList.
  rewrite (proj1 (Split_app COMMA a b)). apply validMessageIdLoop_app.
Qed.

Section ValidatorProperties.
Context `{MailLib}.

(** X19.  Set accepts a key and a value exactly when the key is
    registered and the value is empty or passes the check of its type: an
    empty value is never checked. *)
Theorem Set_accepts (h : Header) (key value : bytes) :
  snd (Header_Set h key value) = None
  <-> exists syntax,
        HeaderSyntax !! CanonicalMIMEHeaderKey key = Some syntax
        /\ (value = [] \/ checkHeader (Type_ syntax) value = None).
Proof.
  unfold Header_Set. cbv zeta.
  destruct (HeaderSyntax !! CanonicalMIMEHeaderKey key) as [syntax|] eqn:Hs.
  - destruct (decide (value = [])) as [->|Hv].
    + rewrite bool_decide_eq_false_2 by (intros Hn; by apply Hn).
      split; [intros _; exists syntax; auto|intros _].
      by destruct (setLoop _ _ _ _ _).
    + rewrite bool_decide_eq_true_2 by done.
      destruct (checkHeader (Type_ syntax) value) as [err|] eqn:Hc.
      * split; [discriminate|]. intros (syn & [= <-] & [?|?]); congruence.
      * split; [intros _; exists syntax; auto|intros _].
        by destruct (setLoop _ _ _ _ _).
  - split; [discriminate|]. intros (syn & ? & _). discriminate.
Qed.

(** X20.  Check sees the name up to its canonical form and the value up
    to the white space around it. *)
Theorem Check_up_to_case_and_space (name name' value value' : bytes) :
  CanonicalMIMEHeaderKey name = CanonicalMIMEHeaderKey name' ->
  TrimSpace value = TrimSpace value' ->
  Check name value = Check name' value'.
Proof.
  intros Hn Hv. unfold Check. rewrite Hn.
  destruct (HeaderSyntax !! CanonicalMIMEHeaderKey name') as [syntax|]; [|done].
  unfold checkHeader. cbv zeta. by rewrite Hv.
Qed.

End ValidatorProperties.

Lemma Check_up_to_case_and_space_witness :
  Check (str "message-id") (str " <a@b.c> ") = Check (str "Message-ID") (str "<a@b.c>").
Proof.
  apply (Check_up_to_case_and_space
           (str "message-id") (str "Message-ID") (str " <a@b.c> ") (str "<a@b.c>"));
    vm_compute; reflexivity.
Defined.

(* ================================================================== *)
(** * Properties of ToMap, AddressList and Date *)
(* ================================================================== *)

Lemma ToMap_fold (hs : list KV) (m : MIMEHeader) (k : bytes) :
  foldl (fun m e => MIMEHeader_Add m (Key e) (Value e)) m hs !! k
  = match valuesUnder k hs with
    | [] => m !! k
    | vs => Some (default [] (m !! k) ++ vs)
    end.
Proof.
  revert m. induction hs as [|e hs IH]; intros m; [done|].
  cbn [foldl]. rewrite IH. unfold valuesUnder.
  rewrite filter_cons. unfold MIMEHeader_Add. cbv zeta.
  destruct (decide (CanonicalMIMEHeaderKey (Key e) = k)) as [->|Hne].
  - rewrite lookup_insert_eq, fmap_cons. cbn [default].
    destruct (Value <$> filter _ hs); [done|].
    unfold id. by rewrite <- app_assoc.
  - by rewrite lookup_insert_ne.
Qed.

(** X21.  ToMap groups the values by the canonical form of their keys and
    keeps their order: under a key are the values of the entries with
    that key, and a key without an entry is not in the map. *)
Theorem ToMap_lookup (h : Header) (k : bytes) :
  ToMap h !! k
  = match valuesUnder k (Headers h) with
    | [] => None
    | vs => Some vs
    end.
Proof.
  unfold ToMap. rewrite ToMap_fold. rewrite lookup_empty. done.
Qed.

Lemma getLoop_valuesUnder k hs :
  Forall (fun e => CanonicalMIMEHeaderKey (Key e) = Key e) hs ->
  getLoop k hs = default [] (head (valuesUnder k hs)).
Proof.
  induction 1 as [|e hs He Hhs IH]; [done|].
  cbn [getLoop]. unfold valuesUnder. rewrite filter_cons. rewrite He.
  destruct (decide (Key e = k)) as [Hk|Hk].
  - rewrite bool_decide_eq_true_2 by done. done.
  - rewrite bool_decide_eq_false_2 by congruence. apply IH.
Qed.

(** X22.  Where every stored key is in canonical form, Get returns the
    first of the values ToMap holds under the key, and the empty string
    where ToMap has none. *)
Theorem Get_first_of_ToMap (h : Header) (key : bytes) :
  Forall (fun e => CanonicalMIMEHeaderKey (Key e) = Key e) (Headers h) ->
  Get h key
  = default [] (head (default [] (ToMap h !! CanonicalMIMEHeaderKey key))).
Proof.
  intros Hc. rewrite ToMap_lookup. unfold Get.
  rewrite (getLoop_valuesUnder _ _ Hc).
  by destruct (valuesUnder _ _).
Qed.

Lemma Get_first_of_ToMap_witness :
  Get (Add (Add (Add emptyHeader (str "to") (str "a@b")) (str "cc") (str "c@d"))
         (str "TO") (str "e@f")) (str "To")
  = default [] (head (default []
      (ToMap (Add (Add (Add emptyHeader (str "to") (str "a@b")) (str "cc") (str "c@d"))
                (str "TO") (str "e@f"))
         !! CanonicalMIMEHeaderKey (str "To")))).
Proof.
  apply (Get_first_of_ToMap
           (Add (Add (Add emptyHeader (str "to") (str "a@b")) (str "cc") (str "c@d"))
              (str "TO") (str "e@f")) (str "To")).
  repeat constructor.
Defined.

Section FieldProperties.
Context `{MailLib}.

(** X23.  AddressList and Date take a field with an empty value for a
    missing field: where the first entry under the key has the empty
    value, Has reports the field and both report ErrHeaderNotPresent,
    whatever the later entries under the key hold. *)
Theorem empty_field_is_not_present (h : Header) (key : bytes)
    (pre post : list KV) (e : KV) :
  Headers h = pre ++ e :: post ->
  noKey (CanonicalMIMEHeaderKey key) pre ->
  Key e = CanonicalMIMEHeaderKey key ->
  Value e = [] ->
  Has h key = true
  /\ AddressList h key = inr ErrHeaderNotPresent
  /\ (CanonicalMIMEHeaderKey key = str "Date" ->
      Date h = Some ErrHeaderNotPresent).
Proof.
  intros Hh Hpre He Hv.
  destruct (getLoop_found _ pre e post Hpre He) as [Hget Hhas].
  rewrite <- Hh, Hv in Hget. rewrite <- Hh in Hhas.
  split; [exact Hhas|]. split.
  - unfold AddressList, Get. cbv zeta. rewrite Hget.
    by rewrite bool_decide_eq_true_2.
  - intros Hd. unfold Date, Get. cbv zeta.
    change (CanonicalMIMEHeaderKey (str "Date")) with (str "Date").
    rewrite <- Hd, Hget. by rewrite bool_decide_eq_true_2.
Qed.


End FieldProperties.

Lemma empty_field_is_not_present_witness :
  Has (mkHeader [mkKV (str "Subject") (str "hi"); mkKV (str "Date") [];
                 mkKV (str "Date") (str "today")]) (str "date") = true
  /\ AddressList (mkHeader [mkKV (str "Subject") (str "hi"); mkKV (str "Date") [];
                            mkKV (str "Date") (str "today")]) (str "date")
     = inr ErrHeaderNotPresent
  /\ (CanonicalMIMEHeaderKey (str "date") = str "Date" ->
      Date (mkHeader [mkKV (str "Subject") (str "hi"); mkKV (str "Date") [];
                      mkKV (str "Date") (str "today")])
      = Some ErrHeaderNotPresent).
Proof.
  apply (empty_field_is_not_present
           (mkHeader [mkKV (str "Subject") (str "hi"); mkKV (str "Date") [];
                      mkKV (str "Date") (str "today")])
           (str "date")
           [mkKV (str "Subject") (str "hi")] [mkKV (str "Date") (str "today")]
           (mkKV (str "Date") [])).
  - reflexivity.
  - repeat constructor. vm_compute. discriminate.
  - reflexivity.
  - reflexivity.
Defined.


(* ================================================================== *)
(** * Properties of the names of the header types *)
(* ================================================================== *)

Lemma IsAHeaderType_range i : IsAHeaderType i = true <-> (0 <= i < 10)%Z.
Proof.
  unfold IsAHeaderType, _HeaderTypeValues. cbn [existsb].
  rewrite !orb_true_iff, !Z.eqb_eq. lia.
Qed.

Lemma HeaderTypeString_found s v :
  _HeaderTypeNameToValueMap !! s = Some v ->
  (0 <= v < 10)%Z /\ HeaderType_String v = s.
Proof.
  intros Hl. apply elem_of_list_to_map_2 in Hl.
  repeat (apply elem_of_cons in Hl as [[= -> ->]|Hl]; [split; [lia | reflexivity]|]).
  by apply elem_of_nil in Hl.
Qed.

(** X25.  The names round trip for the ten constants and for nothing
    else: HeaderTypeString gives back the value String was called on
    exactly when the value is one of the enum. *)
Theorem HeaderType_name_round_trip (i : Z) :
  IsAHeaderType i = true <-> HeaderTypeString (HeaderType_String i) = (i, None).
Proof.
  split.
  - intros Hi. apply IsAHeaderType_range in Hi.
    assert (i = 0 \/ i = 1 \/ i = 2 \/ i = 3 \/ i = 4 \/ i = 5 \/ i = 6 \/ i = 7
            \/ i = 8 \/ i = 9)%Z as Hc by lia.
    repeat (destruct Hc as [->|Hc]; [by vm_compute|]). subst i. by vm_compute.
  - unfold HeaderTypeString.
    destruct (_HeaderTypeNameToValueMap !! HeaderType_String i) as [v|] eqn:Hl;
      [|discriminate].
    intros [= ->]. apply IsAHeaderType_range.
    by destruct (HeaderTypeString_found _ _ Hl).
Qed.

(** X26.  A name HeaderTypeString accepts is the name of the value it
    returns, and that value is one of the enum; every constant of
    HeaderType has a name it accepts. *)
Theorem HeaderTypeString_sound (s : bytes) (v : Z) :
  HeaderTypeString s = (v, None) ->
  HeaderType_String v = s /\ IsAHeaderType v = true
  /\ exists t, HeaderType_int t = v.
Proof.
  unfold HeaderTypeString.
  destruct (_HeaderTypeNameToValueMap !! s) as [v'|] eqn:Hl; [|discriminate].
  intros [= ->]. destruct (HeaderTypeString_found _ _ Hl) as [Hr Hs].
  split; [done|]. split; [by apply IsAHeaderType_range|].
  assert (v = 0 \/ v = 1 \/ v = 2 \/ v = 3 \/ v = 4 \/ v = 5 \/ v = 6 \/ v = 7
          \/ v = 8 \/ v = 9)%Z as Hc by lia.
  destruct Hc as [->|[->|[->|[->|[->|[->|[->|[->|[->| ->]]]]]]]]].
  - by exists HeaderTypeUnstructured.
  - by exists HeaderTypeMailbox.
  - by exists HeaderTypeMailboxList.
  - by exists HeaderTypeDate.
  - by exists HeaderTypeReceived.
  - by exists HeaderTypeMessageID.
  - by exists HeaderTypeMessageIDList.
  - by exists HeaderTypePhraseList.
  - by exists HeaderTypeReturnPath.
  - by exists HeaderTypeOpaque.
Qed.

Lemma HeaderTypeString_sound_witness :
  HeaderType_String 6 = str "message-id-list" /\ IsAHeaderType 6 = true
  /\ exists t, HeaderType_int t = 6%Z.
Proof.
  apply (HeaderTypeString_sound (str "message-id-list") 6). reflexivity.
Defined.

(* ================================================================== *)
(** * The values Normalize leaves *)
(* ================================================================== *)

Lemma accept_ge lo hi b : accept lo hi b = true -> (lo <= ncode b)%N.
Proof.
  unfold accept. intros Ha. apply andb_true_iff in Ha as [Ha _]. by apply N.leb_le.
Qed.

Lemma first_AS b : (ncode b < 128)%N -> first b = AS.
Proof. intros Hb. unfold first. cbv zeta. by rewrite (proj2 (N.ltb_lt _ _) Hb). Qed.

Lemma first_Multi_high b sz lo hi :
  first b = Multi sz lo hi -> (128 <= ncode b)%N /\ (128 <= lo)%N.
Proof.
  unfold first. cbv zeta.
  destruct (ncode b <? 128)%N eqn:H0; [discriminate|]. apply N.ltb_ge in H0.
  repeat match goal with |- context [if ?c then _ else _] => destruct c end;
    intros Hf; try discriminate; injection Hf as <- <- <-; split; (done || lia).
Qed.

(** The bytes of a rune of more than one byte are no ASCII characters. *)
Lemma decodeRune_wide s :
  snd (decodeRune s) <= 1
  \/ Forall (fun b => (128 <= ncode b)%N) (take (snd (decodeRune s)) s).
Proof.
  destruct s as [|b0 r]; [left; simpl; lia|].
  unfold decodeRune. destruct (first b0) as [| |sz lo hi] eqn:Hf;
    [left; simpl; lia | left; simpl; lia |].
  destruct (first_Multi_high _ _ _ _ Hf) as [Hb0 Hlo].
  destruct sz as [|[|[|[|[|sz]]]]]; try (left; simpl; lia);
    destruct r as [|b1 [|b2 [|b3 r]]]; try (left; simpl; lia);
    repeat match goal with
           | |- context [if ?c then _ else _] => destruct c eqn:?
           end;
    try (left; simpl; lia);
    right; cbn [snd take];
    repeat match goal with
           | H : _ && _ = true |- _ => apply andb_true_iff in H as [? ?]
           | H : accept _ _ _ = true |- _ => apply accept_ge in H
           | H : isCont _ = true |- _ => apply accept_ge in H
           end;
    repeat (constructor; [lia|]); constructor.
Qed.

(** A piece is one byte, or it holds no ASCII character. *)
Lemma piece_shape p rest :
  p <> [] -> snd (decodeRune (p ++ rest)) = length p ->
  (exists x, p = [x]) \/ Forall (fun b => (128 <= ncode b)%N) p.
Proof.
  intros Hne Hw. destruct (decodeRune_wide (p ++ rest)) as [Hle|Hall].
  - left. rewrite Hw in Hle.
    destruct p as [|x [|y p]]; [done | by exists x | simpl in Hle; lia].
  - right. by rewrite Hw, take_app_length in Hall.
Qed.

Lemma piece_ascii p rest b :
  p <> [] -> snd (decodeRune (p ++ rest)) = length p ->
  b ∈ p -> (ncode b < 128)%N ->
  p = [b] /\ runeOf p = ncode b.
Proof.
  intros Hne Hw Hb Hlt. destruct (piece_shape p rest Hne Hw) as [[x ->]|Hall].
  - apply list_elem_of_singleton in Hb as ->. split; [done|].
    unfold runeOf, decodeRune. by rewrite (first_AS _ Hlt).
  - rewrite Forall_forall in Hall. specialize (Hall b Hb). lia.
Qed.

Lemma reSpace_ascii b : reSpace b = true -> (ncode b < 128)%N.
Proof.
  unfold reSpace, perlSpace. cbn [existsb].
  rewrite !orb_true_iff, !N.eqb_eq. lia.
Qed.

Lemma space_piece p rest b :
  p <> [] -> snd (decodeRune (p ++ rest)) = length p ->
  b ∈ p -> reSpace b = true ->
  p = [b] /\ whitespaceClass p = true.
Proof.
  intros Hne Hw Hb Hsp.
  destruct (piece_ascii p rest b Hne Hw Hb (reSpace_ascii b Hsp)) as [Hp Hr].
  split; [done|]. unfold whitespaceClass. rewrite Hr.
  unfold reSpace in Hsp. by rewrite Hsp.
Qed.

Lemma collapsed_tail prev p cs : collapsed prev (p :: cs) -> exists prev', collapsed prev' cs.
Proof.
  cbn [collapsed]. destruct (whitespaceClass p).
  - intros (_ & _ & Hc). by exists true.
  - intros Hc. by exists false.
Qed.

Lemma collapsed_spaces cs prev b :
  chunked cs -> collapsed prev cs -> b ∈ concat cs -> reSpace b = true -> b = SP.
Proof.
  intros Hc. revert prev.
  induction Hc as [|p cs Hne Hw Hcs IH]; intros prev Hcol Hb Hsp.
  - by apply elem_of_nil in Hb.
  - cbn [concat] in Hb. apply elem_of_app in Hb as [Hb|Hb].
    + destruct (space_piece p _ b Hne Hw Hb Hsp) as [Hp Hws].
      cbn [collapsed] in Hcol. rewrite Hws in Hcol. destruct Hcol as [Hp' _].
      congruence.
    + destruct (collapsed_tail _ _ _ Hcol) as [prev' Hcol']. by eapply IH.
Qed.

Lemma collapsed_no_double cs prev a b :
  chunked cs -> collapsed prev cs -> concat cs <> a ++ SP :: SP :: b.
Proof.
  intros Hc. revert prev a.
  induction Hc as [|p cs Hne Hw Hcs IH]; intros prev a Hcol Heq.
  - by destruct a.
  - cbn [concat] in Heq.
    destruct (collapsed_tail _ _ _ Hcol) as [prev' Hcol'].
    destruct (piece_shape p _ Hne Hw) as [[x ->]|Hall].
    + destruct a as [|y a]; cbn [app] in Heq.
      * injection Heq as -> Heq.
        cbn [collapsed] in Hcol.
        change (whitespaceClass [SP]) with true in Hcol.
        destruct Hcol as (_ & _ & Hcs').
        destruct Hcs as [|q cs' Hq Hwq Hcs'']; [discriminate|].
        cbn [concat] in Heq.
        destruct q as [|z q]; [done|]. cbn [app] in Heq. injection Heq as -> Heq.
        destruct (space_piece (SP :: q) _ SP Hq Hwq) as [_ Hws];
          [apply elem_of_cons; by left | reflexivity |].
        cbn [collapsed] in Hcs'. rewrite Hws in Hcs'.
        by destruct Hcs' as (_ & ? & _).
      * injection Heq as _ Heq. by eapply IH.
    + apply app_eq_inv in Heq as [(k & Hp & Hk)|(k & Ha & Hk)].
      * destruct k as [|z k].
        -- cbn [app] in Hk. symmetry in Hk. by eapply (IH prev' []).
        -- cbn [app] in Hk. injection Hk as <- _.
           rewrite Forall_forall in Hall.
           assert (SP ∈ p) as Hin.
           { rewrite Hp. apply elem_of_app. right. apply elem_of_cons. by left. }
           specialize (Hall SP Hin). vm_compute in Hall. by destruct Hall.
      * by eapply IH.
Qed.

Lemma normalizeValue_spaces v b :
  b ∈ normalizeValue v -> reSpace b = true -> b = SP.
Proof.
  rewrite normalizeValue_pieces.
  apply (collapsed_spaces _ false); [apply normalizedPieces_chunked|].
  apply normalizedPieces_collapsed.
Qed.

Lemma normalizeValue_noBreak v : noBreak (normalizeValue v).
Proof.
  apply Forall_forall. intros b Hb.
  destruct (isCRLF b) eqn:Hcr; [|done].
  assert (reSpace b = true) as Hsp.
  { unfold isCRLF in Hcr. apply orb_true_iff in Hcr as [Hc|Hc];
      apply Ascii.eqb_eq in Hc; by subst b. }
  rewrite (normalizeValue_spaces v b Hb Hsp) in Hcr. discriminate.
Qed.

Lemma TrimSpace_idem s : TrimSpace (TrimSpace s) = TrimSpace s.
Proof.
  unfold TrimSpace.
  rewrite chunked_runes
    by apply chunked_dropWhileEnd, chunked_dropWhile, runes_chunked.
  f_equal. apply trim_idem.
Qed.

Lemma normalizeValue_trimmed v : TrimSpace (normalizeValue v) = normalizeValue v.
Proof. unfold normalizeValue. apply TrimSpace_idem. Qed.

Lemma Normalize_entry h e :
  e ∈ Headers (Normalize h) -> exists v, Value e = normalizeValue v.
Proof.
  rewrite Normalize_map. intros He. apply list_elem_of_fmap in He as (e' & -> & _).
  by exists (Value e').
Qed.

(** X27.  After Normalize no value holds a tab, a line feed, a form feed
    or a carriage return: of the class [\s] only the space is left. *)
Theorem Normalize_leaves_spaces_only (h : Header) (e : KV) (b : ascii) :
  e ∈ Headers (Normalize h) -> b ∈ Value e ->
  b <> TAB /\ b <> LF /\ b <> FF /\ b <> CR.
Proof.
  intros He Hb. destruct (Normalize_entry h e He) as [v Hv]. rewrite Hv in Hb.
  repeat split; intros ->;
    by pose proof (normalizeValue_spaces v _ Hb eq_refl).
Qed.

Lemma Normalize_leaves_spaces_only_witness :
  "b" <> TAB /\ "b" <> LF /\ "b" <> FF /\ "b" <> CR.
Proof.
  apply (Normalize_leaves_spaces_only
           (mkHeader [mkKV (str "Subject") (str "a" ++ [TAB; CR; LF] ++ str "b")])
           (mkKV (str "Subject") (str "a b")) "b").
  - vm_compute. apply elem_of_cons. by left.
  - vm_compute. apply elem_of_cons. right. apply elem_of_cons. right.
    apply elem_of_cons. by left.
Defined.

(** X28.  After Normalize no value has white space at its ends: trimming
    it, as Check and writeHeader do, changes nothing. *)
Theorem Normalize_trims (h : Header) (e : KV) :
  e ∈ Headers (Normalize h) -> TrimSpace (Value e) = Value e.
Proof.
  intros He. destruct (Normalize_entry h e He) as [v ->].
  apply normalizeValue_trimmed.
Qed.

Lemma Normalize_trims_witness :
  TrimSpace (str "a b") = str "a b".
Proof.
  apply (Normalize_trims
           (mkHeader [mkKV (str "Subject") (str "  a" ++ [TAB; CR; LF] ++ str "b ")])
           (mkKV (str "Subject") (str "a b"))).
  vm_compute. apply elem_of_cons. by left.
Defined.

(** X29.  After Normalize no value holds two spaces one after the other:
    every run of white space has become one space. *)
Theorem Normalize_no_double_space (h : Header) (e : KV) (a b : bytes) :
  e ∈ Headers (Normalize h) -> Value e <> a ++ SP :: SP :: b.
Proof.
  intros He. destruct (Normalize_entry h e He) as [v ->].
  rewrite normalizeValue_pieces.
  apply (collapsed_no_double _ false); [apply normalizedPieces_chunked|].
  apply normalizedPieces_collapsed.
Qed.

Lemma Normalize_no_double_space_witness :
  str "a b" <> str "a" ++ SP :: SP :: str "b".
Proof.
  apply (Normalize_no_double_space
           (mkHeader [mkKV (str "Subject") (str "a  b")])
           (mkKV (str "Subject") (str "a b")) (str "a") (str "b")).
  vm_compute. apply elem_of_cons. by left.
Defined.

Section NormalizedOutput.
Context `{MailLib}.

(** X30.  A normalized value is written without an error and in lines as
    writeHeader folds them, whatever the value was before, where the type
    leaves the value as it is: Normalize removes the CR and LF that the
    folding of writeHeader takes for an error in a quoted string and
    writes out as they are elsewhere. *)
Theorem normalized_value_is_written (w : Writer) (headerType : HeaderType)
    (key value : bytes) (o : Options) :
  noBreak key ->
  prepareValue headerType (normalizeValue value) o = inl (normalizeValue value) ->
  exists out first rest,
    writeHeader w headerType key (normalizeValue value) o = (w ++ out, None)
    /\ lines out = first :: rest ++ [[]]
    /\ firstLineOK key first /\ Forall contLineOK rest.
Proof.
  intros Hkey Hprep. unfold writeHeader. cbv zeta.
  rewrite normalizeValue_trimmed, Hprep.
  apply foldValue_lines; [done | apply normalizeValue_noBreak].
Qed.

End NormalizedOutput.

Lemma normalized_value_is_written_witness :
  exists out first rest,
    writeHeader [] HeaderTypeOpaque (str "X-Note")
      (normalizeValue (DQUOTE :: str "a" ++ [CR; LF] ++ str "b" ++ [DQUOTE]))
      defaultOptions = ([] ++ out, None)
    /\ lines out = first :: rest ++ [[]]
    /\ firstLineOK (str "X-Note") first /\ Forall contLineOK rest.
Proof.
  apply (normalized_value_is_written [] HeaderTypeOpaque (str "X-Note")
           (DQUOTE :: str "a" ++ [CR; LF] ++ str "b" ++ [DQUOTE]) defaultOptions).
  - apply (bool_decide_unpack _). vm_compute. exact I.
  - reflexivity.
Defined.
